(** * Arbitrage detection over bookmaker odds: a model of [src/logic.py]

    The development embeds the functions of [logic.py] and proves the
    properties of the aggregation-and-detection pipeline:

    - [handle_faulty_response], [get_sports], [get_upcoming_events_data]
      (the fetch boundary, over an explicit network oracle);
    - [process_upcoming_events_data] (status filter, best price per outcome,
      implied-probability total, record construction);
    - [get_upcoming_arbitrage_opportunities] (the per-sport loop with the
      cutoff filter).

    Modelling choices.
    - JSON numbers are exact rationals ([Q]).  Every finite binary64 value
      and every integer is a rational, and the comparisons [>] and [<] of the
      source agree with the rational order on them; [1/x], [sum] and
      [1 - cutoff] are taken exactly, without rounding.
    - A JSON object has the fields of the provider's wire format, each of
      which may be absent ([option]); reading an absent field with [d[k]]
      raises [KeyError], as in Python.
    - Strings are byte strings; [str.lower] acts on the ASCII letters.
    - A generator is the list of values it yields, followed by its ending:
      a normal return or the exception that propagates ([Trace]).
    - [time.time()] is an oracle [clock : nat -> Q], indexed by the number of
      calls made so far; the counter is threaded through the code.
    - The network is an oracle giving the response of each endpoint. *)

From Stdlib Require Import List String Ascii Bool ZArith QArith Lia Arith.
From Stdlib Require Import Permutation.
Import ListNotations.

Local Open Scope string_scope.
Local Open Scope Q_scope.

Set Implicit Arguments.

(** ** Exceptions and results *)

(** The three exception classes of [logic.py]:
    [APIException], and its subclasses [AuthenticationException] and
    [RateLimitException]. *)
Inductive APIExceptionClass : Type :=
| APIException
| AuthenticationException
| RateLimitException.

(** A JSON payload as the code reads it: a list of items, or an object whose
    keys map to strings (the provider's error body is
    [{"message": ...}]). *)
Inductive Payload (A : Type) : Type :=
| PList (items : list A)
| PDict (fields : list (string * string)).

Arguments PDict {A} fields.

(** [requests.Response]: the status code and the decoded body. *)
Record Response (A : Type) : Type := mkResponse {
  status_code : Z;
  json : Payload A
}.

(** What an exception of the API family holds in [args]: the text passed by
    [handle_faulty_response] and the response, here its status and the
    fields of its body. *)
Record APIArgs : Type := mkAPIArgs {
  arg_text : string;
  arg_status : Z;
  arg_body : option (list (string * string))
}.

Inductive exn : Type :=
| KeyError (key : string)
| IndexError
| TypeError
| ZeroDivisionError
| APIError (cls : APIExceptionClass) (args : APIArgs).

Inductive result (A : Type) : Type :=
| Ok (a : A)
| Raise (e : exn).

Arguments Raise {A} e.

Definition bind {A B} (r : result A) (f : A -> result B) : result B :=
  match r with
  | Ok a => f a
  | Raise e => Raise e
  end.

Notation "x <- c ;; k" := (bind c (fun x => k))
  (at level 61, c at next level, right associativity).

(** [d[k]] on an object whose field [k] may be absent. *)
Definition getitem {A} (key : string) (field : option A) : result A :=
  match field with
  | Some v => Ok v
  | None => Raise (KeyError key)
  end.

(** [l[0]] on a list. *)
Definition index0 {A} (l : list A) : result A :=
  match l with
  | x :: _ => Ok x
  | [] => Raise IndexError
  end.

(** A KeyError or an IndexError: a failed access into the structure. *)
Definition structural_failure (e : exn) : bool :=
  match e with
  | KeyError _ | IndexError => true
  | _ => false
  end.

(** ** Numbers *)

(** [x < y] on JSON numbers. *)
Definition Qltb (x y : Q) : bool :=
  (Qnum x * QDen y <? Qnum y * QDen x)%Z.

(** [x == 0], the test behind ZeroDivisionError. *)
Definition Qis_zero (x : Q) : bool := (Qnum x =? 0)%Z.

(** [1 / x]. *)
Definition py_inv (x : Q) : result Q :=
  if Qis_zero x then Raise ZeroDivisionError else Ok (/ x).

(** ** Strings *)

Definition lower_ascii (c : ascii) : ascii :=
  let n := nat_of_ascii c in
  if (65 <=? n)%nat && (n <=? 90)%nat then ascii_of_nat (n + 32) else c.

(** [str.lower]. *)
Fixpoint lower (s : string) : string :=
  match s with
  | EmptyString => EmptyString
  | String c s' => String (lower_ascii c) (lower s')
  end.

(** [needle in hay] on strings. *)
Fixpoint str_contains (needle hay : string) : bool :=
  if prefix needle hay then true
  else match hay with
       | EmptyString => false
       | String _ hay' => str_contains needle hay'
       end.

(** ** The wire format *)

(** [{"name": ..., "price": ...}] *)
Record Outcome : Type := mkOutcome {
  o_name : option string;
  o_price : option Q
}.

(** [{"outcomes": [...]}] *)
Record Market : Type := mkMarket {
  m_outcomes : option (list Outcome)
}.

(** [{"title": ..., "markets": [...]}] *)
Record Bookmaker : Type := mkBookmaker {
  b_title : option string;
  b_markets : option (list Market)
}.

(** An event object of the odds endpoint. *)
Record Event : Type := mkEvent {
  e_sport_key : option string;
  e_home_team : option string;
  e_away_team : option string;
  e_commence_time : option Z;
  e_status : option string;
  e_bookmakers : option (list Bookmaker)
}.

(** An item of the sports endpoint. *)
Record SportItem : Type := mkSportItem {
  s_key : option string
}.

(** ** Dictionaries keyed by strings, in insertion order *)

Section Dict.
Variable V : Type.

Definition dict := list (string * V).

(** [d.get(k)] *)
Fixpoint dict_get (k : string) (d : dict) : option V :=
  match d with
  | [] => None
  | (k', v) :: d' => if String.eqb k k' then Some v else dict_get k d'
  end.

(** [d[k] = v]: an existing key keeps its position, a new one goes last. *)
Fixpoint dict_set (k : string) (v : V) (d : dict) : dict :=
  match d with
  | [] => [(k, v)]
  | (k', v') :: d' =>
      if String.eqb k k' then (k', v) :: d' else (k', v') :: dict_set k v d'
  end.

Definition dict_keys (d : dict) : list string := map fst d.
Definition dict_values (d : dict) : list V := map snd d.
End Dict.

(** [best_odd_per_outcome]: outcome name to [(bookie_name, odd)]. *)
Definition BestOdds := dict (string * Q).

(** ** Best price per outcome (lines 75-82) *)

(** Lines 79-82, after the two reads: keep the stored pair unless the name is
    new or the price is strictly greater. *)
Definition update_best (bookie_name outcome_name : string) (odd : Q)
    (best_odd_per_outcome : BestOdds) : BestOdds :=
  match dict_get outcome_name best_odd_per_outcome with
  | None => dict_set outcome_name (bookie_name, odd) best_odd_per_outcome
  | Some (_, current) =>
      if Qltb current odd
      then dict_set outcome_name (bookie_name, odd) best_odd_per_outcome
      else best_odd_per_outcome
  end.

(** The inner loop, [for outcome in bookmaker["markets"][0]["outcomes"]]. *)
Fixpoint outcomes_loop (bookie_name : string) (outcomes : list Outcome)
    (best_odd_per_outcome : BestOdds) : result BestOdds :=
  match outcomes with
  | [] => Ok best_odd_per_outcome
  | outcome :: rest =>
      outcome_name <- getitem "name" (o_name outcome) ;;
      odd <- getitem "price" (o_price outcome) ;;
      outcomes_loop bookie_name rest
        (update_best bookie_name outcome_name odd best_odd_per_outcome)
  end.

(** [bookmaker["markets"][0]["outcomes"]] *)
Definition first_market_outcomes (bookmaker : Bookmaker)
    : result (list Outcome) :=
  markets <- getitem "markets" (b_markets bookmaker) ;;
  market <- index0 markets ;;
  getitem "outcomes" (m_outcomes market).

(** The outer loop, [for bookmaker in event["bookmakers"]]. *)
Fixpoint bookmakers_loop (bookmakers : list Bookmaker)
    (best_odd_per_outcome : BestOdds) : result BestOdds :=
  match bookmakers with
  | [] => Ok best_odd_per_outcome
  | bookmaker :: rest =>
      bookie_name <- getitem "title" (b_title bookmaker) ;;
      outcomes <- first_market_outcomes bookmaker ;;
      best' <- outcomes_loop bookie_name outcomes best_odd_per_outcome ;;
      bookmakers_loop rest best'
  end.

(** Lines 75-82 for one event. *)
Definition best_odds_of_event (event : Event) : result BestOdds :=
  bookmakers <- getitem "bookmakers" (e_bookmakers event) ;;
  bookmakers_loop bookmakers [].

(** ** Total implied odds (line 84) *)

(** [sum(1/i[1] for i in values)]: a left fold from 0 that stops at the
    first division by zero. *)
Fixpoint sum_inverse (acc : Q) (values : list (string * Q)) : result Q :=
  match values with
  | [] => Ok acc
  | i :: rest =>
      x <- py_inv (snd i) ;;
      sum_inverse (acc + x) rest
  end.

Definition total_implied (best_odd_per_outcome : BestOdds) : result Q :=
  sum_inverse 0 (dict_values best_odd_per_outcome).

(** ** The yielded record (lines 88-95) *)

Record Opportunity : Type := mkOpportunity {
  match_name : string;
  match_start_time : Z;
  hours_to_start : Q;
  league : string;
  best_outcome_odds : BestOdds;
  total_implied_odds : Q
}.

(** The normalizer's test, lines 71-72. *)
Definition event_status (event : Event) : string :=
  lower (match e_status event with Some s => s | None => "" end).

Definition is_upcoming (event : Event) : bool :=
  match e_commence_time event with
  | Some _ =>
      String.eqb (event_status event) "upcoming"
      || String.eqb (event_status event) "pre-match"
  | None => false
  end.

(** The body of the loop for an event that passed the test (lines 73-95);
    [now] is what [time.time()] returns on line 86. *)
Definition event_record (now : Q) (event : Event) : result Opportunity :=
  start_time <- getitem "commence_time" (e_commence_time event) ;;
  best_odd_per_outcome <- best_odds_of_event event ;;
  total <- total_implied best_odd_per_outcome ;;
  home_team <- getitem "home_team" (e_home_team event) ;;
  away_team <- getitem "away_team" (e_away_team event) ;;
  let name := home_team ++ " v. " ++ away_team in
  let time_to_start := (inject_Z start_time - now) / 3600 in
  lg <- getitem "sport_key" (e_sport_key event) ;;
  Ok (mkOpportunity name start_time time_to_start lg
        best_odd_per_outcome total).

(** ** Generators *)

(** How a run ends: it returns, after [k] calls to [time.time()] in all, or
    an exception propagates. *)
Inductive Ending : Type :=
| Returned (k : nat)
| Raised (e : exn).

(** The values a generator yields, then its ending. *)
Definition Trace (A : Type) : Type := (list A * Ending)%type.

Definition yielded {A} (t : Trace A) : list A := fst t.
Definition ending {A} (t : Trace A) : Ending := snd t.

(** Yield the values [xs], then continue as [t]. *)
Definition yield_then {A} (xs : list A) (t : Trace A) : Trace A :=
  ((xs ++ fst t)%list, snd t).

(** Run [t]; if it returns, continue with [next] from its clock count. *)
Definition and_then {A} (t : Trace A) (next : nat -> Trace A) : Trace A :=
  match snd t with
  | Returned k => yield_then (fst t) (next k)
  | Raised e => t
  end.

(** [process_upcoming_events_data], lines 68-95.  [k] counts the calls to
    [time.time()] made so far. *)
Fixpoint process_upcoming_events_data (clock : nat -> Q) (k : nat)
    (events : list Event) : Trace Opportunity :=
  match events with
  | [] => ([], Returned k)
  | event :: rest =>
      if is_upcoming event then
        match event_record (clock k) event with
        | Ok r => yield_then [r] (process_upcoming_events_data clock (S k) rest)
        | Raise e => ([], Raised e)
        end
      else process_upcoming_events_data clock k rest
  end.

(** ** The fetch boundary *)

(** [bool(response)], which [requests] defines as [response.ok]: false for
    the status codes from 400 to 599. *)
Definition response_ok {A} (response : Response A) : bool :=
  negb ((400 <=? status_code response)%Z && (status_code response <? 600)%Z).

(** The body of a response as an exception keeps it: the fields of an
    object, nothing for a list. *)
Definition body_fields {A} (response : Response A)
    : option (list (string * string)) :=
  match json response with
  | PList _ => None
  | PDict fields => Some fields
  end.

Definition api_args {A} (text : string) (response : Response A) : APIArgs :=
  mkAPIArgs text (status_code response) (body_fields response).

(** [handle_faulty_response], lines 28-34: it always raises. *)
Definition handle_faulty_response {A} (response : Response A) : exn :=
  if (status_code response =? 401)%Z then
    APIError AuthenticationException
      (api_args "Failed to authenticate with the API. Is the API key valid?"
         response)
  else if (status_code response =? 429)%Z then
    APIError RateLimitException
      (api_args "Encountered API rate limit." response)
  else
    APIError APIException
      (api_args "Unknown issue arose while trying to access the API."
         response).

(** [APIException.__str__], line 17. *)
Definition api_exception_str (args : APIArgs) : result string :=
  match arg_body args with
  | None => Raise TypeError
  | Some fields =>
      message <- getitem "message" (dict_get "message" fields) ;;
      Ok ("('" ++ arg_text args ++ "', '" ++ message ++ "')")
  end.

(** The outside world: the two endpoints, the wall clock, and the order in
    which a set of sport keys is iterated. *)
Record World : Type := mkWorld {
  sports_endpoint : string -> Response SportItem;
  odds_endpoint : string -> string -> string -> string -> Response Event;
  clock : nat -> Q;
  set_order : list string -> list string
}.

(** The set comprehension of line 46 over a list of items. *)
Fixpoint sport_keys (items : list SportItem) : result (list string) :=
  match items with
  | [] => Ok []
  | item :: rest =>
      key <- getitem "key" (s_key item) ;;
      keys <- sport_keys rest ;;
      Ok (key :: keys)
  end.

(** [get_sports], lines 37-46.  Iterating an object gives its keys, and
    [item["key"]] on a string is a TypeError. *)
Definition get_sports (w : World) (key : string) : result (list string) :=
  let response := sports_endpoint w key in
  if negb (response_ok response) then Raise (handle_faulty_response response)
  else
    match json response with
    | PList items => sport_keys items
    | PDict [] => Ok []
    | PDict (_ :: _) => Raise TypeError
    end.

(** The comprehension of line 63 over a list of events; each event with a
    [commence_time] reads the clock once. *)
Fixpoint future_events (clock : nat -> Q) (k : nat) (events : list Event)
    : list Event * nat :=
  match events with
  | [] => ([], k)
  | event :: rest =>
      match e_commence_time event with
      | Some t =>
          let (kept, k') := future_events clock (S k) rest in
          if Qltb (clock k) (inject_Z t) then (event :: kept, k')
          else (kept, k')
      | None => future_events clock k rest
      end
  end.

(** The same comprehension over the keys of an object: ["commence_time" in
    event] is then a substring test, and [event["commence_time"]] on a
    string is a TypeError. *)
Fixpoint future_events_of_keys (keys : list string) : result (list Event) :=
  match keys with
  | [] => Ok []
  | key :: rest =>
      if str_contains "commence_time" key then Raise TypeError
      else future_events_of_keys rest
  end.

(** [get_upcoming_events_data], lines 49-65, with [odds_format] at its
    default. *)
Definition get_upcoming_events_data (w : World) (k : nat)
    (key sport region : string) : result (list Event * nat) :=
  let response := odds_endpoint w key sport region "decimal" in
  if negb (response_ok response) then Raise (handle_faulty_response response)
  else
    match json response with
    | PList events => Ok (future_events (clock w) k events)
    | PDict fields =>
        upcoming_events <- future_events_of_keys (dict_keys fields) ;;
        Ok (upcoming_events, k)
    end.

(** ** The orchestrator (lines 100-107) *)

(** ["message" in upcoming_events_data] on a list of event objects: some
    element equals the string, and an object never equals a string. *)
Definition message_in (upcoming_events_data : list Event) : bool :=
  existsb (fun _ : Event => false) upcoming_events_data.

(** The lambda of line 106. *)
Definition is_arbitrage (cutoff : Q) (x : Opportunity) : bool :=
  Qltb 0 (total_implied_odds x) && Qltb (total_implied_odds x) (1 - cutoff).

(** [filter(lambda, results)] over a generator: the values that pass, and
    the same ending. *)
Definition filter_trace {A} (f : A -> bool) (t : Trace A) : Trace A :=
  (filter f (fst t), snd t).

(** Lines 105-106 for the events of one sport. *)
Definition arbitrage_opportunities (w : World) (cutoff : Q) (k : nat)
    (upcoming_events_data : list Event) : Trace Opportunity :=
  filter_trace (is_arbitrage cutoff)
    (process_upcoming_events_data (clock w) k upcoming_events_data).

(** The loop of lines 102-107. *)
Fixpoint sports_loop (w : World) (key region : string) (cutoff : Q)
    (sports : list string) (k : nat) : Trace Opportunity :=
  match sports with
  | [] => ([], Returned k)
  | sport :: rest =>
      match get_upcoming_events_data w k key sport region with
      | Raise e => ([], Raised e)
      | Ok (upcoming_events_data, k1) =>
          if negb (message_in upcoming_events_data) then
            and_then (arbitrage_opportunities w cutoff k1 upcoming_events_data)
              (sports_loop w key region cutoff rest)
          else sports_loop w key region cutoff rest k1
      end
  end.

(** [get_upcoming_arbitrage_opportunities], lines 100-107. *)
Definition get_upcoming_arbitrage_opportunities (w : World)
    (key region : string) (cutoff : Q) : Trace Opportunity :=
  match get_sports w key with
  | Raise e => ([], Raised e)
  | Ok sports => sports_loop w key region cutoff (set_order w sports) 0
  end.

(** ** The quotes of an event, in the order the loops meet them *)

(** One price: [(bookie_name, outcome_name, odd)]. *)
Definition Quote : Type := (string * string * Q)%type.

Definition quote_bookie (q : Quote) : string := fst (fst q).
Definition quote_name (q : Quote) : string := snd (fst q).
Definition quote_price (q : Quote) : Q := snd q.

(** The quotes of a list of outcomes, when every outcome has its fields. *)
Fixpoint outcome_quotes (bookie_name : string) (outcomes : list Outcome)
    : option (list Quote) :=
  match outcomes with
  | [] => Some []
  | outcome :: rest =>
      match o_name outcome, o_price outcome, outcome_quotes bookie_name rest with
      | Some name, Some price, Some qs => Some ((bookie_name, name, price) :: qs)
      | _, _, _ => None
      end
  end.

(** The quotes of the first market of a bookmaker. *)
Definition bookmaker_quotes (bookmaker : Bookmaker) : option (list Quote) :=
  match b_title bookmaker, b_markets bookmaker with
  | Some title, Some (market :: _) =>
      match m_outcomes market with
      | Some outcomes => outcome_quotes title outcomes
      | None => None
      end
  | _, _ => None
  end.

(** The quotes of all bookmakers, in input order. *)
Fixpoint quotes_of_bookmakers (bookmakers : list Bookmaker)
    : option (list Quote) :=
  match bookmakers with
  | [] => Some []
  | bookmaker :: rest =>
      match bookmaker_quotes bookmaker, quotes_of_bookmakers rest with
      | Some qs, Some qs' => Some (qs ++ qs')%list
      | _, _ => None
      end
  end.

(** The quotes for one outcome name, in order. *)
Definition quotes_for (name : string) (quotes : list Quote) : list Quote :=
  filter (fun q => String.eqb name (quote_name q)) quotes.

(** One step of the loops on a quote. *)
Definition apply_quote (best : BestOdds) (q : Quote) : BestOdds :=
  update_best (quote_bookie q) (quote_name q) (quote_price q) best.

(** [entry] is the first of the quotes for its name to reach their greatest
    price: every quote before it is strictly lower, none after it is
    higher. *)
Definition first_maximum (entry : Quote) (quotes : list Quote) : Prop :=
  exists before after,
    quotes_for (quote_name entry) quotes = (before ++ entry :: after)%list /\
    (forall q, In q before -> quote_price q < quote_price entry) /\
    (forall q, In q after -> quote_price q <= quote_price entry).

(** The bookmaker [bookie] lists the outcome [name] at [price] in its first
    market. *)
Definition quoted_by (bookmakers : list Bookmaker) (name bookie : string)
    (price : Q) : Prop :=
  exists bookmaker market markets outcomes outcome,
    In bookmaker bookmakers /\
    b_title bookmaker = Some bookie /\
    b_markets bookmaker = Some (market :: markets) /\
    m_outcomes market = Some outcomes /\
    In outcome outcomes /\
    o_name outcome = Some name /\
    o_price outcome = Some price.

(** ** The stages of the pipeline, as the specification names them *)

(** The Normalizer: the events that pass the test of line 72. *)
Definition normalize (events : list Event) : list Event :=
  filter is_upcoming events.

(** The Aggregator run on every event it is given, in order. *)
Fixpoint aggregate_all (clock : nat -> Q) (k : nat) (events : list Event)
    : Trace Opportunity :=
  match events with
  | [] => ([], Returned k)
  | event :: rest =>
      match event_record (clock k) event with
      | Ok r => yield_then [r] (aggregate_all clock (S k) rest)
      | Raise e => ([], Raised e)
      end
  end.

(** [l1] is [l2] with some elements removed. *)
Inductive Subsequence {A : Type} : list A -> list A -> Prop :=
| Subsequence_nil : Subsequence [] []
| Subsequence_keep x l1 l2 : Subsequence l1 l2 -> Subsequence (x :: l1) (x :: l2)
| Subsequence_drop x l1 l2 : Subsequence l1 l2 -> Subsequence l1 (x :: l2).

(** An event the aggregation loops cannot walk: no [bookmakers] field, or a
    bookmaker whose [markets] is empty or whose first market has no
    [outcomes] field. *)
Definition malformed (event : Event) : Prop :=
  e_bookmakers event = None \/
  exists bookmakers bookmaker,
    e_bookmakers event = Some bookmakers /\
    In bookmaker bookmakers /\
    (b_markets bookmaker = Some [] \/
     exists market markets,
       b_markets bookmaker = Some (market :: markets) /\
       m_outcomes market = None).



(** A record without the field read from the wall clock. *)
Definition without_hours (r : Opportunity)
    : string * Z * string * BestOdds * Q :=
  (match_name r, match_start_time r, league r, best_outcome_odds r,
   total_implied_odds r).

(** The same world with another wall clock. *)
Definition with_clock (w : World) (c : nat -> Q) : World :=
  mkWorld (sports_endpoint w) (odds_endpoint w) c (set_order w).

(** What the loops maintain: after the quotes [seen], the dictionary has one
    entry per name seen, and each entry is the first maximum for its name. *)
Definition best_inv (seen : list Quote) (best : BestOdds) : Prop :=
  NoDup (dict_keys best) /\
  (forall name, In name (dict_keys best) <-> In name (map quote_name seen)) /\
  (forall name bookie price,
      dict_get name best = Some (bookie, price) ->
      first_maximum (bookie, name, price) seen).


(** The error the fetch boundary owes for a response: the class chosen by
    the status code, and in [args] the status and body of the response. *)
Definition fetch_error {A} (response : Response A) (e : exn) : Prop :=
  exists cls text,
    e = APIError cls
          (mkAPIArgs text (status_code response) (body_fields response)) /\
    (cls = AuthenticationException <-> status_code response = 401%Z) /\
    (cls = RateLimitException <-> status_code response = 429%Z) /\
    (cls = APIException <->
     status_code response <> 401%Z /\ status_code response <> 429%Z) /\
    (forall fields message,
        json response = PDict fields ->
        dict_get "message" fields = Some message ->
        api_exception_str
          (mkAPIArgs text (status_code response) (body_fields response)) =
        Ok ("('" ++ text ++ "', '" ++ message ++ "')")).

(** ** Sample data: the scenarios of the specification *)

Module Scenarios.

Definition outcome (name : string) (price : Q) : Outcome :=
  mkOutcome (Some name) (Some price).

Definition bookmaker (title : string) (outcomes : list Outcome) : Bookmaker :=
  mkBookmaker (Some title) (Some [mkMarket (Some outcomes)]).

Definition event (status : string) (bookmakers : list Bookmaker) : Event :=
  mkEvent (Some "soccer_epl") (Some "Home FC") (Some "Away FC")
    (Some 7200%Z) (Some status) (Some bookmakers).

(** Scenario A: A quotes Home 2.10, Away 1.90; B quotes Home 2.05,
    Away 2.00. *)
Definition bookmakers_A : list Bookmaker :=
  [ bookmaker "A" [outcome "Home" (21 # 10); outcome "Away" (19 # 10)];
    bookmaker "B" [outcome "Home" (205 # 100); outcome "Away" 2] ].

Definition event_A : Event := event "Upcoming" bookmakers_A.

Definition quotes_A : list Quote :=
  [ ("A", "Home", 21 # 10); ("A", "Away", 19 # 10);
    ("B", "Home", 205 # 100); ("B", "Away", 2) ].

(** Scenario B: one bookmaker, Home 1.50, Away 2.50. *)
Definition event_B : Event :=
  event "pre-match"
    [ bookmaker "A" [outcome "Home" (15 # 10); outcome "Away" (25 # 10)] ].

(** Scenario C: prices 4, 2 and 5, whose inverses add up to 0.95. *)
Definition event_C : Event :=
  event "upcoming"
    [ bookmaker "A" [outcome "Home" 4; outcome "Draw" 2; outcome "Away" 5] ].

Definition record_C : Opportunity :=
  mkOpportunity "Home FC v. Away FC" 7200 ((7200 # 1) * / 3600) "soccer_epl"
    [("Home", ("A", 4)); ("Draw", ("A", 2)); ("Away", ("A", 5))]
    (38 # 40).

(** An event with a [bookmakers] field that is the empty list. *)
Definition event_no_bookmakers : Event := event "upcoming" [].

(** An event without the [bookmakers] field. *)
Definition event_malformed : Event :=
  mkEvent (Some "soccer_epl") (Some "Home FC") (Some "Away FC")
    (Some 7200%Z) (Some "upcoming") None.

Definition error_body : list (string * string) :=
  [("message", "Unknown sport")].

(** A provider with two sports; the odds of ["soccer_epl"] are an error
    body under a success status, those of any other sport are the events
    of scenarios A and B.  The clock stands at [now]. *)
Definition world (now : Q) : World :=
  mkWorld
    (fun _ => mkResponse 200
       (PList [mkSportItem (Some "soccer_epl"); mkSportItem (Some "nba")]))
    (fun _ sport _ _ =>
       if String.eqb sport "soccer_epl"
       then mkResponse 200 (PDict error_body)
       else mkResponse 200 (PList [event_A; event_B]))
    (fun _ => now)
    (fun keys => keys).

(** A provider that rejects the API key. *)
Definition world_unauthorized : World :=
  mkWorld
    (fun _ => mkResponse 401 (PDict [("message", "Invalid key")]))
    (fun _ _ _ _ => mkResponse 401 (PDict [("message", "Invalid key")]))
    (fun _ => 0)
    (fun keys => keys).

End Scenarios.

(** ** The entry point and further notions *)


(** ["commence_time" in event] on an event object. *)
Definition has_commence_time (event : Event) : bool :=
  match e_commence_time event with
  | Some _ => true
  | None => false
  end.

(** The names of [names] not in [seen], each at its first occurrence. *)
Fixpoint first_seen (seen names : list string) : list string :=
  match names with
  | [] => []
  | name :: rest =>
      if existsb (String.eqb name) seen then first_seen seen rest
      else name :: first_seen (name :: seen) rest
  end.

(** An entry is left as it was, or replaced at a strictly higher price. *)
Definition kept_or_raised (old new : string * Q) : Prop :=
  new = old \/ snd old < snd new.



(** More sample data. *)
Module Samples.

(** Nobody quotes Draw above 0. *)
Definition event_zero_price : Event :=
  Scenarios.event "upcoming"
    [ Scenarios.bookmaker "A"
        [Scenarios.outcome "Home" 2; Scenarios.outcome "Draw" 0] ].

(** An event as the provider sends it, without a [status]. *)
Definition event_no_status : Event :=
  mkEvent (Some "soccer_epl") (Some "Home FC") (Some "Away FC")
    (Some 7200%Z) None None.

(** Scenario A with a third bookmaker, better on Away only. *)
Definition bookmaker_C : Bookmaker :=
  Scenarios.bookmaker "C"
    [Scenarios.outcome "Home" 2; Scenarios.outcome "Away" (21 # 10)].


(** A provider whose second sport is over its quota. *)
Definition world_rate_limited : World :=
  mkWorld
    (fun _ => mkResponse 200
       (PList [mkSportItem (Some "nba"); mkSportItem (Some "nfl")]))
    (fun _ sport _ _ =>
       if String.eqb sport "nba"
       then mkResponse 200 (PList [Scenarios.event_A])
       else mkResponse 429 (PDict [("message", "Quota reached")]))
    (fun _ => 0)
    (fun keys => keys).

End Samples.

(** * Lemmas *)

(** ** Numbers and dictionaries: basic facts *)

Unset Implicit Arguments.

Lemma Qltb_lt (x y : Q) : Qltb x y = true <-> x < y.
Proof. unfold Qltb, Qlt. apply Z.ltb_lt. Qed.

Lemma Qltb_ge (x y : Q) : Qltb x y = false <-> y <= x.
Proof. unfold Qltb, Qle. apply Z.ltb_ge. Qed.

Lemma Qis_zero_false (x : Q) : Qis_zero x = false -> ~ x == 0.
Proof.
  unfold Qis_zero, Qeq. intros H E. simpl in E.
  apply Z.eqb_neq in H. lia.
Qed.

Section DictFacts.
Variable V : Type.
Implicit Types (d : dict V) (k : string) (v : V).

Lemma dict_get_None k d : dict_get k d = None <-> ~ In k (dict_keys d).
Proof.
  induction d as [|[k' v'] d IH]; simpl.
  - tauto.
  - destruct (String.eqb_spec k k') as [->|Hne].
    + split; [discriminate | intros H; exfalso; apply H; now left].
    + rewrite IH. split.
      * intros H [E|HI]; [now apply Hne | now apply H].
      * intros H HI. apply H. now right.
Qed.

Lemma dict_get_In k v d : dict_get k d = Some v -> In (k, v) d.
Proof.
  induction d as [|[k' v'] d IH]; simpl; [discriminate|].
  destruct (String.eqb_spec k k') as [->|Hne].
  - intros [= ->]. now left.
  - intros H. right. now apply IH.
Qed.

Lemma dict_In_get k v d :
  NoDup (dict_keys d) -> In (k, v) d -> dict_get k d = Some v.
Proof.
  induction d as [|[k' v'] d IH]; simpl; [tauto|].
  intros ND [E|HI].
  - inversion E; subst. now rewrite String.eqb_refl.
  - inversion ND as [|? ? Hnotin ND']; subst.
    destruct (String.eqb_spec k k') as [->|Hne].
    + exfalso. apply Hnotin. change k' with (fst (k', v)).
      now apply in_map.
    + now apply IH.
Qed.

Lemma dict_get_set_same k v d : dict_get k (dict_set k v d) = Some v.
Proof.
  induction d as [|[k' v'] d IH]; simpl.
  - now rewrite String.eqb_refl.
  - destruct (String.eqb_spec k k') as [->|Hne]; simpl.
    + now rewrite String.eqb_refl.
    + destruct (String.eqb_spec k k'); [contradiction | exact IH].
Qed.

Lemma dict_get_set_other k k0 v d :
  k0 <> k -> dict_get k0 (dict_set k v d) = dict_get k0 d.
Proof.
  intros Hne. induction d as [|[k' v'] d IH]; simpl.
  - destruct (String.eqb_spec k0 k); [contradiction | reflexivity].
  - destruct (String.eqb_spec k k') as [->|Hne']; simpl.
    + destruct (String.eqb_spec k0 k'); [contradiction | reflexivity].
    + now rewrite IH.
Qed.

Lemma dict_keys_set_old k v d :
  In k (dict_keys d) -> dict_keys (dict_set k v d) = dict_keys d.
Proof.
  induction d as [|[k' v'] d IH]; simpl; [tauto|].
  destruct (String.eqb_spec k k') as [->|Hne]; simpl; [reflexivity|].
  intros [E|HI]; [now subst | now rewrite IH].
Qed.

Lemma dict_keys_set_new k v d :
  ~ In k (dict_keys d) -> dict_keys (dict_set k v d) = (dict_keys d ++ [k])%list.
Proof.
  induction d as [|[k' v'] d IH]; simpl; [reflexivity|].
  intros H. destruct (String.eqb_spec k k') as [->|Hne]; simpl.
  - exfalso. apply H. now left.
  - rewrite IH; [reflexivity | tauto].
Qed.
End DictFacts.

(** ** The aggregation loops as a fold over the quotes *)

Lemma NoDup_snoc {A} (l : list A) (x : A) :
  NoDup l -> ~ In x l -> NoDup (l ++ [x]).
Proof.
  induction l as [|y l IH]; simpl; intros ND Hx.
  - constructor; [tauto | constructor].
  - inversion ND as [|? ? Hy ND']; subst. constructor.
    + rewrite in_app_iff. simpl. intros [H|[H|[]]]; [tauto | subst; tauto].
    + apply IH; tauto.
Qed.

Lemma quotes_for_app name qs qs' :
  quotes_for name (qs ++ qs') = (quotes_for name qs ++ quotes_for name qs')%list.
Proof. apply filter_app. Qed.

Lemma quotes_for_absent name qs :
  ~ In name (map quote_name qs) -> quotes_for name qs = [].
Proof.
  induction qs as [|q qs IH]; simpl; intros H; [reflexivity|].
  destruct (String.eqb_spec name (quote_name q)) as [E|_].
  - exfalso. apply H. now left.
  - apply IH. tauto.
Qed.

Lemma quotes_for_In name q qs :
  In q (quotes_for name qs) <-> In q qs /\ quote_name q = name.
Proof.
  unfold quotes_for. rewrite filter_In.
  destruct (String.eqb_spec name (quote_name q)); intuition congruence.
Qed.

Lemma best_inv_nil : best_inv [] [].
Proof.
  repeat split; simpl; try tauto; try discriminate. constructor.
Qed.

Lemma first_maximum_other bookie name price seen q :
  quote_name q <> name ->
  first_maximum (bookie, name, price) seen ->
  first_maximum (bookie, name, price) (seen ++ [q]).
Proof.
  intros Hne (before & after & E & Hb & Ha).
  exists before, after. repeat split; auto.
  rewrite quotes_for_app, E. simpl. cbn [quote_name fst snd].
  destruct (String.eqb_spec name (quote_name q)) as [->|_]; [congruence|].
  now rewrite app_nil_r.
Qed.

Lemma best_inv_step seen best q :
  best_inv seen best -> best_inv (seen ++ [q]) (apply_quote best q).
Proof.
  intros (ND & Hkeys & Hmax).
  destruct q as [[b n] p]. unfold apply_quote, update_best.
  cbn [quote_bookie quote_name quote_price fst snd].
  assert (Hnames : forall name,
            In name (map quote_name (seen ++ [(b, n, p)])) <->
            In name (map quote_name seen) \/ name = n).
  { intros name. rewrite map_app, in_app_iff. simpl.
    cbn [quote_name fst snd]. intuition congruence. }
  destruct (dict_get n best) as [[b1 p1]|] eqn:G.
  - (* the name is already there *)
    assert (Hin : In n (dict_keys best)).
    { apply dict_get_In in G. change n with (fst (n, (b1, p1))).
      now apply in_map. }
    destruct (Qltb p1 p) eqn:L.
    + (* a strictly greater price replaces the entry *)
      apply Qltb_lt in L. split; [|split].
      * now rewrite dict_keys_set_old.
      * intros name. rewrite dict_keys_set_old, Hnames, Hkeys by assumption.
        split; [tauto|]. intros [H | ->]; [assumption | now apply Hkeys].
      * intros name bookie price Hget.
        destruct (String.eqb_spec name n) as [->|Hne].
        -- rewrite dict_get_set_same in Hget. inversion Hget; subst.
           destruct (Hmax _ _ _ G) as (before & after & E & Hb & Ha).
           cbn [quote_name quote_price fst snd] in *.
           exists (before ++ (b1, n, p1) :: after)%list, [].
           cbn [quote_name quote_price fst snd]. repeat split.
           ++ rewrite quotes_for_app, E. simpl. cbn [quote_name fst snd].
              now rewrite String.eqb_refl.
           ++ intros q Hq. apply in_app_iff in Hq.
              destruct Hq as [Hq | [ <- | Hq ] ].
              ** eapply Qlt_trans; [now apply Hb | exact L].
              ** exact L.
              ** eapply Qle_lt_trans; [now apply Ha | exact L].
           ++ intros q [].
        -- rewrite dict_get_set_other in Hget by assumption.
           apply first_maximum_other; [cbn; congruence | now apply Hmax].
    + (* otherwise the entry stays *)
      apply Qltb_ge in L. split; [|split].
      * assumption.
      * intros name. rewrite Hnames, Hkeys.
        split; [tauto|]. intros [H | ->]; [assumption | now apply Hkeys].
      * intros name bookie price Hget.
        destruct (String.eqb_spec name n) as [->|Hne].
        -- rewrite G in Hget. inversion Hget; subst.
           destruct (Hmax _ _ _ G) as (before & after & E & Hb & Ha).
           cbn [quote_name quote_price fst snd] in *.
           exists before, (after ++ [(b, n, p)])%list.
           cbn [quote_name quote_price fst snd]. repeat split.
           ++ rewrite quotes_for_app, E. simpl. cbn [quote_name fst snd].
              rewrite String.eqb_refl. now rewrite <- app_assoc.
           ++ assumption.
           ++ intros q Hq. apply in_app_iff in Hq.
              destruct Hq as [Hq | [ <- | [] ] ]; [now apply Ha | exact L].
        -- apply first_maximum_other; [cbn; congruence | now apply Hmax].
  - (* a new name goes last *)
    assert (Hnot : ~ In n (dict_keys best)) by now apply dict_get_None.
    split; [|split].
    + rewrite dict_keys_set_new by assumption. now apply NoDup_snoc.
    + intros name. rewrite dict_keys_set_new, Hnames by assumption.
      rewrite in_app_iff, Hkeys. simpl. intuition congruence.
    + intros name bookie price Hget.
      destruct (String.eqb_spec name n) as [->|Hne].
      * rewrite dict_get_set_same in Hget. inversion Hget; subst.
        exists [], []. cbn [quote_name quote_price fst snd]. repeat split.
        -- rewrite quotes_for_app, quotes_for_absent.
           ++ simpl. cbn [quote_name fst snd]. now rewrite String.eqb_refl.
           ++ now rewrite <- Hkeys.
        -- intros q [].
        -- intros q [].
      * rewrite dict_get_set_other in Hget by assumption.
        apply first_maximum_other; [cbn; congruence | now apply Hmax].
Qed.

Lemma best_inv_fold qs : forall seen best,
  best_inv seen best ->
  best_inv (seen ++ qs) (fold_left apply_quote qs best).
Proof.
  induction qs as [|q qs IH]; intros seen best H; simpl.
  - now rewrite app_nil_r.
  - replace (seen ++ q :: qs)%list with ((seen ++ [q]) ++ qs)%list
      by now rewrite <- app_assoc.
    apply IH. now apply best_inv_step.
Qed.

Lemma outcomes_loop_quotes bookie outcomes : forall best qs,
  outcome_quotes bookie outcomes = Some qs ->
  outcomes_loop bookie outcomes best = Ok (fold_left apply_quote qs best).
Proof.
  induction outcomes as [|o outcomes IH]; simpl; intros best qs H.
  - now inversion H.
  - destruct (o_name o) as [name|]; [|discriminate].
    destruct (o_price o) as [price|]; [|discriminate].
    destruct (outcome_quotes bookie outcomes) as [qs'|]; [|discriminate].
    inversion H; subst. simpl. now apply IH.
Qed.

Lemma outcomes_loop_Ok bookie outcomes : forall best best',
  outcomes_loop bookie outcomes best = Ok best' ->
  exists qs, outcome_quotes bookie outcomes = Some qs.
Proof.
  induction outcomes as [|o outcomes IH]; simpl; intros best best' H.
  - now exists [].
  - destruct (o_name o) as [name|]; [|discriminate].
    destruct (o_price o) as [price|]; [|discriminate].
    simpl in H. apply IH in H. destruct H as [qs ->]. eauto.
Qed.

Lemma bookmakers_loop_quotes bookmakers : forall best qs,
  quotes_of_bookmakers bookmakers = Some qs ->
  bookmakers_loop bookmakers best = Ok (fold_left apply_quote qs best).
Proof.
  induction bookmakers as [|b bookmakers IH]; simpl; intros best qs H.
  - now inversion H.
  - unfold bookmaker_quotes, first_market_outcomes in *.
    destruct (b_title b) as [title|]; [|discriminate].
    destruct (b_markets b) as [[|market markets]|]; try discriminate.
    simpl. destruct (m_outcomes market) as [outcomes|]; [|discriminate].
    destruct (outcome_quotes title outcomes) as [q1|] eqn:E1; [|discriminate].
    destruct (quotes_of_bookmakers bookmakers) as [q2|]; [|discriminate].
    inversion H; subst. simpl.
    rewrite (outcomes_loop_quotes _ _ best _ E1). simpl.
    rewrite fold_left_app. now apply IH.
Qed.

Lemma bookmakers_loop_Ok bookmakers : forall best best',
  bookmakers_loop bookmakers best = Ok best' ->
  exists qs, quotes_of_bookmakers bookmakers = Some qs.
Proof.
  induction bookmakers as [|b bookmakers IH]; simpl; intros best best' H.
  - now exists [].
  - unfold bookmaker_quotes, first_market_outcomes in *.
    destruct (b_title b) as [title|]; [|discriminate].
    destruct (b_markets b) as [[|market markets]|]; try discriminate.
    simpl in H. destruct (m_outcomes market) as [outcomes|]; [|discriminate].
    simpl in H.
    destruct (outcomes_loop title outcomes best) as [best1|] eqn:E1;
      [|discriminate].
    simpl in H. apply IH in H. destruct H as [q2 ->].
    apply outcomes_loop_Ok in E1. destruct E1 as [q1 ->]. eauto.
Qed.

Lemma outcome_quotes_In bookie outcomes : forall qs q,
  outcome_quotes bookie outcomes = Some qs -> In q qs ->
  quote_bookie q = bookie /\
  exists outcome, In outcome outcomes /\
    o_name outcome = Some (quote_name q) /\
    o_price outcome = Some (quote_price q).
Proof.
  induction outcomes as [|o outcomes IH]; simpl; intros qs q H Hq.
  - inversion H; subst. destruct Hq.
  - destruct (o_name o) as [name|] eqn:En; [|discriminate].
    destruct (o_price o) as [price|] eqn:Ep; [|discriminate].
    destruct (outcome_quotes bookie outcomes) as [qs'|]; [|discriminate].
    inversion H; subst. destruct Hq as [<-|Hq].
    + split; [reflexivity|]. exists o. auto.
    + destruct (IH _ _ eq_refl Hq) as (Hb & o' & Ho' & Hn & Hp).
      split; [assumption|]. exists o'. auto.
Qed.

Lemma quotes_of_bookmakers_In bookmakers : forall qs q,
  quotes_of_bookmakers bookmakers = Some qs -> In q qs ->
  quoted_by bookmakers (quote_name q) (quote_bookie q) (quote_price q).
Proof.
  induction bookmakers as [|b bookmakers IH]; simpl; intros qs q H Hq.
  - inversion H; subst. destruct Hq.
  - destruct (bookmaker_quotes b) as [q1|] eqn:E1; [|discriminate].
    destruct (quotes_of_bookmakers bookmakers) as [q2|]; [|discriminate].
    inversion H; subst. apply in_app_iff in Hq. destruct Hq as [Hq|Hq].
    + unfold bookmaker_quotes in E1.
      destruct (b_title b) as [title|] eqn:Et; [|discriminate].
      destruct (b_markets b) as [[|market markets]|] eqn:Em; try discriminate.
      destruct (m_outcomes market) as [outcomes|] eqn:Eo; [|discriminate].
      destruct (outcome_quotes_In _ _ _ _ E1 Hq) as (Hb & o & Ho & Hn & Hp).
      exists b, market, markets, outcomes, o. rewrite Hb.
      repeat split; auto. now left.
    + destruct (IH _ _ eq_refl Hq)
        as (b' & m & ms & os & o & Hb' & Ht & Hm & Ho & Hi & Hn & Hp).
      exists b', m, ms, os, o. repeat split; auto. now right.
Qed.

(** The dictionary built for an event whose bookmakers all have their
    fields. *)
Lemma best_odds_of_quotes event bookmakers quotes :
  e_bookmakers event = Some bookmakers ->
  quotes_of_bookmakers bookmakers = Some quotes ->
  best_odds_of_event event = Ok (fold_left apply_quote quotes []).
Proof.
  intros Hb Hq. unfold best_odds_of_event. rewrite Hb. simpl.
  now apply bookmakers_loop_quotes.
Qed.

(** Conversely, a dictionary is only built for such an event. *)
Lemma best_odds_of_event_Ok event best :
  best_odds_of_event event = Ok best ->
  exists bookmakers quotes,
    e_bookmakers event = Some bookmakers /\
    quotes_of_bookmakers bookmakers = Some quotes /\
    best = fold_left apply_quote quotes [].
Proof.
  unfold best_odds_of_event. intros H.
  destruct (e_bookmakers event) as [bookmakers|]; [|discriminate].
  simpl in H. destruct (bookmakers_loop_Ok _ _ _ H) as [quotes Hq].
  exists bookmakers, quotes. repeat split; auto.
  rewrite (bookmakers_loop_quotes _ [] _ Hq) in H. now inversion H.
Qed.

Lemma best_inv_of_quotes quotes :
  best_inv quotes (fold_left apply_quote quotes []).
Proof. exact (best_inv_fold quotes [] [] best_inv_nil). Qed.

(** ** The record of an event *)

Lemma event_record_Ok now event r :
  event_record now event = Ok r ->
  best_odds_of_event event = Ok (best_outcome_odds r) /\
  total_implied (best_outcome_odds r) = Ok (total_implied_odds r) /\
  e_commence_time event = Some (match_start_time r) /\
  hours_to_start r = (inject_Z (match_start_time r) - now) / 3600 /\
  (exists home away,
      e_home_team event = Some home /\ e_away_team event = Some away /\
      match_name r = home ++ " v. " ++ away) /\
  e_sport_key event = Some (league r).
Proof.
  unfold event_record. intros H.
  destruct (e_commence_time event) as [t|]; [|discriminate]. simpl in H.
  destruct (best_odds_of_event event) as [best|]; [|discriminate]. simpl in H.
  destruct (total_implied best) as [total|] eqn:Et; [|discriminate].
  simpl in H.
  destruct (e_home_team event) as [home|]; [|discriminate]. simpl in H.
  destruct (e_away_team event) as [away|]; [|discriminate]. simpl in H.
  destruct (e_sport_key event) as [lg|]; [|discriminate]. simpl in H.
  inversion H; subst; simpl. repeat split; eauto.
Qed.

(** ** Traces *)

Lemma and_then_returned {A} (xs : list A) k next :
  and_then (xs, Returned k) next = yield_then xs (next k).
Proof. reflexivity. Qed.

Lemma and_then_raised {A} (xs : list A) e next :
  and_then (xs, Raised e) next = (xs, Raised e).
Proof. reflexivity. Qed.

Lemma yield_then_and_then {A} (xs : list A) t next :
  and_then (yield_then xs t) next = yield_then xs (and_then t next).
Proof.
  destruct t as [ys [k|e]]; unfold and_then, yield_then; simpl.
  - now rewrite app_assoc.
  - reflexivity.
Qed.

Lemma process_app clock events1 : forall k events2,
  process_upcoming_events_data clock k (events1 ++ events2) =
  and_then (process_upcoming_events_data clock k events1)
    (fun k' => process_upcoming_events_data clock k' events2).
Proof.
  induction events1 as [|event events1 IH]; intros k events2; simpl.
  - unfold and_then, yield_then. simpl.
    now destruct (process_upcoming_events_data clock k events2).
  - destruct (is_upcoming event); [|apply IH].
    destruct (event_record (clock k) event); [|reflexivity].
    now rewrite IH, yield_then_and_then.
Qed.

(** Every record yielded is the record of an event of the input that passed
    the test. *)
Lemma process_yielded clock events : forall k r,
  In r (yielded (process_upcoming_events_data clock k events)) ->
  exists event now,
    In event events /\ is_upcoming event = true /\
    event_record now event = Ok r.
Proof.
  induction events as [|event events IH]; simpl; intros k r H.
  - destruct H.
  - destruct (is_upcoming event) eqn:U.
    + destruct (event_record (clock k) event) as [r0|] eqn:E.
      * unfold yielded, yield_then in H. simpl in H. destruct H as [<-|H].
        -- exists event, (clock k). auto.
        -- destruct (IH _ _ H) as (ev & now & Hi & Hu & Hr).
           exists ev, now. auto.
      * destruct H.
    + destruct (IH _ _ H) as (ev & now & Hi & Hu & Hr).
      exists ev, now. auto.
Qed.

(** ** Sums of inverse prices *)

Lemma sum_inverse_Ok values : forall acc total,
  sum_inverse acc values = Ok total ->
  total = fold_left (fun acc value => acc + / snd value) values acc /\
  forall value, In value values -> ~ snd value == 0.
Proof.
  induction values as [|v values IH]; simpl; intros acc total H.
  - inversion H. split; [reflexivity | intros ? []].
  - unfold py_inv in H. destruct (Qis_zero (snd v)) eqn:Z; [discriminate|].
    simpl in H. destruct (IH _ _ H) as [-> Hnz].
    split; [reflexivity|]. intros value [<-|Hin].
    + now apply Qis_zero_false.
    + now apply Hnz.
Qed.




Example scenario_A_best_odds :
  best_odds_of_event Scenarios.event_A =
  Ok [("Home", ("A", 21 # 10)); ("Away", ("B", 2))].
Proof. reflexivity. Qed.

Example scenario_A_emitted :
  map without_hours
    (yielded (arbitrage_opportunities (Scenarios.world 0) (2 # 100) 0
                [Scenarios.event_A; Scenarios.event_B])) =
  [("Home FC v. Away FC", 7200%Z, "soccer_epl",
    [("Home", ("A", 21 # 10)); ("Away", ("B", 2))], 41 # 42)].
Proof. vm_compute. reflexivity. Qed.

Example pipeline_emits_scenario_A :
  map without_hours
    (yielded (get_upcoming_arbitrage_opportunities (Scenarios.world 0)
                "k" "eu" (2 # 100))) =
  [("Home FC v. Away FC", 7200%Z, "soccer_epl",
    [("Home", ("A", 21 # 10)); ("Away", ("B", 2))], 41 # 42)] /\
  ending (get_upcoming_arbitrage_opportunities (Scenarios.world 0)
            "k" "eu" (2 # 100)) = Returned 4.
Proof. split; vm_compute; reflexivity. Qed.

Example scenario_B_not_emitted :
  arbitrage_opportunities (Scenarios.world 0) 0 0 [Scenarios.event_B] =
  ([], Returned 1).
Proof. reflexivity. Qed.

Example scenario_C_yielded :
  process_upcoming_events_data (clock (Scenarios.world 0)) 0
    [Scenarios.event_C] = ([Scenarios.record_C], Returned 1).
Proof. reflexivity. Qed.

(** * The properties *)

(** ** The Evaluator *)



(** ** The Aggregator *)

(** C2.  For an event whose bookmakers all carry their fields, the
    aggregation returns a mapping whose keys are exactly the outcome names
    quoted by some bookmaker, each once, and the entry of every quoted name
    is its first maximum: the quote of greatest price among those for that
    name, where every earlier quote for the name is strictly lower (so on
    equal prices the first bookmaker met is kept). *)
Theorem C2_best_odds_first_maximum :
  forall (event : Event) (bookmakers : list Bookmaker) (quotes : list Quote),
    e_bookmakers event = Some bookmakers ->
    quotes_of_bookmakers bookmakers = Some quotes ->
    exists best : BestOdds,
      best_odds_of_event event = Ok best /\
      NoDup (dict_keys best) /\
      (forall name,
          In name (dict_keys best) <-> In name (map quote_name quotes)) /\
      (forall name,
          In name (map quote_name quotes) ->
          exists bookie price,
            dict_get name best = Some (bookie, price) /\
            In (name, (bookie, price)) best /\
            first_maximum (bookie, name, price) quotes /\
            (forall q, In q quotes -> quote_name q = name ->
                       quote_price q <= price)).
Proof.
  intros event bookmakers quotes Hb Hq.
  exists (fold_left apply_quote quotes []).
  destruct (best_inv_of_quotes quotes) as (ND & Hkeys & Hmax).
  split; [now apply best_odds_of_quotes with bookmakers|].
  split; [assumption|]. split; [assumption|].
  intros name Hname. apply Hkeys in Hname.
  destruct (dict_get name (fold_left apply_quote quotes [])) as [[bookie price]|]
    eqn:G.
  - exists bookie, price. split; [reflexivity|].
    split; [now apply dict_get_In|]. split; [now apply Hmax|].
    intros q Hin Hn.
    destruct (Hmax _ _ _ G) as (before & after & E & Hbefore & Hafter).
    cbn [quote_name quote_price fst snd] in *.
    assert (Hq' : In q (quotes_for name quotes))
      by (apply quotes_for_In; auto).
    rewrite E in Hq'. apply in_app_iff in Hq'.
    destruct Hq' as [Hq' | [ <- | Hq' ] ].
    + now apply Qlt_le_weak, Hbefore.
    + apply Qle_refl.
    + now apply Hafter.
  - exfalso. apply dict_get_None in G. contradiction.
Qed.

(** Scenario A: Home is best at A (2.10 against 2.05), Away at B. *)
Lemma C2_witness :
  e_bookmakers Scenarios.event_A = Some Scenarios.bookmakers_A /\
  quotes_of_bookmakers Scenarios.bookmakers_A = Some Scenarios.quotes_A /\
  exists best : BestOdds,
    best_odds_of_event Scenarios.event_A = Ok best /\
    NoDup (dict_keys best) /\
    (forall name,
        In name (dict_keys best) <->
        In name (map quote_name Scenarios.quotes_A)) /\
    (forall name,
        In name (map quote_name Scenarios.quotes_A) ->
        exists bookie price,
          dict_get name best = Some (bookie, price) /\
          In (name, (bookie, price)) best /\
          first_maximum (bookie, name, price) Scenarios.quotes_A /\
          (forall q, In q Scenarios.quotes_A -> quote_name q = name ->
                     quote_price q <= price)).
Proof.
  split; [reflexivity|]. split; [reflexivity|].
  apply (C2_best_odds_first_maximum Scenarios.event_A Scenarios.bookmakers_A
           Scenarios.quotes_A); reflexivity.
Defined.

(** C10.  Every entry of the best-odds mapping of a yielded record is a
    quote of the event it was built from: the bookmaker named in the entry
    lists that outcome name at exactly that price in its first market. *)
Theorem C10_entries_are_real_quotes :
  forall (clock : nat -> Q) (k : nat) (events : list Event) (r : Opportunity),
    In r (yielded (process_upcoming_events_data clock k events)) ->
    exists event bookmakers,
      In event events /\
      e_bookmakers event = Some bookmakers /\
      best_odds_of_event event = Ok (best_outcome_odds r) /\
      forall name bookie price,
        In (name, (bookie, price)) (best_outcome_odds r) ->
        quoted_by bookmakers name bookie price.
Proof.
  intros clock k events r H.
  destruct (process_yielded _ _ _ _ H) as (event & now & Hin & _ & Hr).
  apply event_record_Ok in Hr. destruct Hr as (Hbest & _).
  destruct (best_odds_of_event_Ok _ _ Hbest)
    as (bookmakers & quotes & Hb & Hq & Hfold).
  exists event, bookmakers. repeat split; auto.
  intros name bookie price Hentry. rewrite Hfold in Hentry.
  destruct (best_inv_of_quotes quotes) as (ND & _ & Hmax).
  apply dict_In_get in Hentry; [|assumption].
  destruct (Hmax _ _ _ Hentry) as (before & after & E & _ & _).
  cbn [quote_name fst snd] in E.
  assert (Hquote : In (bookie, name, price) (quotes_for name quotes)).
  { rewrite E. apply in_app_iff. right. now left. }
  apply quotes_for_In in Hquote. destruct Hquote as [Hquote _].
  exact (quotes_of_bookmakers_In _ _ _ Hq Hquote).
Qed.

Lemma C10_witness :
  In Scenarios.record_C
    (yielded (process_upcoming_events_data (clock (Scenarios.world 0)) 0
                [Scenarios.event_C])) /\
  exists event bookmakers,
    In event [Scenarios.event_C] /\
    e_bookmakers event = Some bookmakers /\
    best_odds_of_event event = Ok (best_outcome_odds Scenarios.record_C) /\
    forall name bookie price,
      In (name, (bookie, price)) (best_outcome_odds Scenarios.record_C) ->
      quoted_by bookmakers name bookie price.
Proof.
  assert (H : In Scenarios.record_C
                (yielded (process_upcoming_events_data
                            (clock (Scenarios.world 0)) 0
                            [Scenarios.event_C])))
    by (simpl; now left).
  split; [exact H|].
  exact (C10_entries_are_real_quotes (clock (Scenarios.world 0)) 0
           [Scenarios.event_C] Scenarios.record_C H).
Defined.



(** ** The Normalizer *)

Lemma is_upcoming_true event :
  is_upcoming event = true <->
  e_commence_time event <> None /\
  (event_status event = "upcoming" \/ event_status event = "pre-match").
Proof.
  unfold is_upcoming. destruct (e_commence_time event) as [t|].
  - rewrite orb_true_iff, !String.eqb_eq. split.
    + intros H. split; [discriminate | exact H].
    + tauto.
  - split; [discriminate | tauto].
Qed.

Lemma normalize_subsequence events : Subsequence (normalize events) events.
Proof.
  induction events as [|event events IH]; simpl.
  - constructor.
  - destruct (is_upcoming event); now constructor.
Qed.

Lemma process_is_staged clock events : forall k,
  process_upcoming_events_data clock k events =
  aggregate_all clock k (normalize events).
Proof.
  induction events as [|event events IH]; intros k; simpl; [reflexivity|].
  destruct (is_upcoming event); simpl; [|apply IH].
  destruct (event_record (clock k) event); [|reflexivity].
  now rewrite IH.
Qed.

Lemma aggregate_all_returned clock events : forall k records k',
  aggregate_all clock k events = (records, Returned k') ->
  Forall2 (fun event r => exists now, event_record now event = Ok r)
    events records.
Proof.
  induction events as [|event events IH]; simpl; intros k records k' H.
  - inversion H. constructor.
  - destruct (event_record (clock k) event) as [r|] eqn:E; [|discriminate].
    destruct (aggregate_all clock (S k) events) as [rs en] eqn:A.
    unfold yield_then in H. simpl in H. inversion H; subst.
    constructor; [eauto | eapply IH; eassumption].
Qed.

(** C4.  The loop is the Aggregator run over the events the Normalizer
    keeps; an event is kept if and only if it has a [commence_time] and its
    lower-cased status is ["upcoming"] or ["pre-match"]; the kept events are
    in input order; an event that fails the test is skipped without any
    error; and a run that returns has yielded one record per kept event, in
    order. *)
Theorem C4_normalizer_keeps_upcoming_in_order :
  forall (clock : nat -> Q) (k : nat) (events : list Event),
    process_upcoming_events_data clock k events =
      aggregate_all clock k (normalize events) /\
    (forall event,
        In event (normalize events) <->
        In event events /\
        e_commence_time event <> None /\
        (event_status event = "upcoming" \/
         event_status event = "pre-match")) /\
    Subsequence (normalize events) events /\
    (forall event rest k',
        is_upcoming event = false ->
        process_upcoming_events_data clock k' (event :: rest) =
        process_upcoming_events_data clock k' rest) /\
    (forall records k',
        process_upcoming_events_data clock k events = (records, Returned k') ->
        Forall2 (fun event r => exists now, event_record now event = Ok r)
          (normalize events) records).
Proof.
  intros clock k events. split; [apply process_is_staged|].
  split; [|split; [apply normalize_subsequence|split]].
  - intros event. unfold normalize. rewrite filter_In, is_upcoming_true.
    tauto.
  - intros event rest k' H. simpl. now rewrite H.
  - intros records k' H. rewrite process_is_staged in H.
    eapply aggregate_all_returned; eassumption.
Qed.

(** A status in capitals passes the test; a finished event is skipped and
    the events around it are still processed. *)
Lemma C4_witness :
  is_upcoming (Scenarios.event "completed" Scenarios.bookmakers_A) = false /\
  process_upcoming_events_data (fun _ => 0) 0
    [Scenarios.event "completed" Scenarios.bookmakers_A; Scenarios.event_A] =
  process_upcoming_events_data (fun _ => 0) 0 [Scenarios.event_A].
Proof.
  split; [reflexivity|].
  apply (C4_normalizer_keeps_upcoming_in_order (fun _ => 0) 0 []).
  reflexivity.
Defined.

(** ** Failures *)

Lemma and_then_assoc {A} (t : Trace A) f g :
  and_then (and_then t f) g = and_then t (fun k => and_then (f k) g).
Proof.
  destruct t as [xs [k|e]]; [|reflexivity].
  rewrite !and_then_returned. apply yield_then_and_then.
Qed.

Lemma yield_then_nil {A} (t : Trace A) : yield_then [] t = t.
Proof. now destruct t. Qed.

Lemma filter_trace_and_then {A} (f : A -> bool) (t : Trace A) next :
  filter_trace f (and_then t next) =
  and_then (filter_trace f t) (fun k => filter_trace f (next k)).
Proof.
  destruct t as [xs [k|e]]; [|reflexivity].
  unfold and_then, filter_trace, yield_then. simpl.
  now rewrite filter_app.
Qed.

Lemma message_in_false events : message_in events = false.
Proof. unfold message_in. induction events; simpl; auto. Qed.

Lemma sports_loop_cons w key region cutoff sport rest k events k1 :
  get_upcoming_events_data w k key sport region = Ok (events, k1) ->
  sports_loop w key region cutoff (sport :: rest) k =
  and_then (arbitrage_opportunities w cutoff k1 events)
    (sports_loop w key region cutoff rest).
Proof.
  intros H. simpl. rewrite H. now rewrite message_in_false.
Qed.

Lemma sports_loop_app w key region cutoff sports1 : forall k sports2,
  sports_loop w key region cutoff (sports1 ++ sports2) k =
  and_then (sports_loop w key region cutoff sports1 k)
    (sports_loop w key region cutoff sports2).
Proof.
  induction sports1 as [|sport sports1 IH]; intros k sports2.
  - simpl. rewrite and_then_returned. now rewrite yield_then_nil.
  - change ((sport :: sports1) ++ sports2)%list
      with (sport :: (sports1 ++ sports2))%list.
    destruct (get_upcoming_events_data w k key sport region)
      as [[events k1]|e] eqn:G.
    + rewrite (sports_loop_cons w key region cutoff sport (sports1 ++ sports2)
                 k events k1 G).
      rewrite (sports_loop_cons w key region cutoff sport sports1
                 k events k1 G).
      rewrite and_then_assoc.
      destruct (arbitrage_opportunities w cutoff k1 events) as [xs [k2|e]].
      * rewrite !and_then_returned. now rewrite IH.
      * reflexivity.
    + simpl. rewrite G. reflexivity.
Qed.

(** The aggregation loops fail only on a missing field or an empty list. *)
Lemma outcomes_loop_Raise bookie outcomes : forall best e,
  outcomes_loop bookie outcomes best = Raise e -> structural_failure e = true.
Proof.
  induction outcomes as [|o outcomes IH]; simpl; intros best e H.
  - discriminate.
  - destruct (o_name o) as [name|]; simpl in H; [|now inversion H].
    destruct (o_price o) as [price|]; simpl in H; [|now inversion H].
    eapply IH; eassumption.
Qed.

Lemma bookmakers_loop_Raise bookmakers : forall best e,
  bookmakers_loop bookmakers best = Raise e -> structural_failure e = true.
Proof.
  induction bookmakers as [|b bookmakers IH]; simpl; intros best e H.
  - discriminate.
  - unfold first_market_outcomes in H.
    destruct (b_title b) as [title|]; simpl in H; [|now inversion H].
    destruct (b_markets b) as [[|market markets]|]; simpl in H;
      try now inversion H.
    destruct (m_outcomes market) as [outcomes|]; simpl in H;
      [|now inversion H].
    destruct (outcomes_loop title outcomes best) as [best1|e1] eqn:E1;
      simpl in H.
    + eapply IH; eassumption.
    + inversion H; subst. eapply outcomes_loop_Raise; eassumption.
Qed.

Lemma quotes_of_bookmakers_Some bookmakers : forall quotes bookmaker,
  quotes_of_bookmakers bookmakers = Some quotes ->
  In bookmaker bookmakers ->
  exists qs, bookmaker_quotes bookmaker = Some qs.
Proof.
  induction bookmakers as [|b bookmakers IH]; simpl; intros quotes b0 H Hin.
  - destruct Hin.
  - destruct (bookmaker_quotes b) as [q1|] eqn:E1; [|discriminate].
    destruct (quotes_of_bookmakers bookmakers) as [q2|]; [|discriminate].
    destruct Hin as [<-|Hin]; [eauto | eapply IH; eauto].
Qed.

Lemma malformed_fails event :
  malformed event ->
  exists e, structural_failure e = true /\ best_odds_of_event event = Raise e.
Proof.
  intros M. destruct (best_odds_of_event event) as [best|e] eqn:B.
  - exfalso.
    destruct (best_odds_of_event_Ok _ _ B) as (bookmakers & quotes & Hb & Hq & _).
    destruct M as [M | (bms & b & Hbms & Hin & M)]; [congruence|].
    rewrite Hb in Hbms. inversion Hbms; subst.
    destruct (quotes_of_bookmakers_Some _ _ _ Hq Hin) as [qs Hqs].
    unfold bookmaker_quotes in Hqs.
    destruct (b_title b); [|discriminate].
    destruct M as [M | (m & ms & Hm & Ho)]; rewrite ?M, ?Hm in Hqs;
      [discriminate|].
    rewrite Ho in Hqs. discriminate.
  - exists e. split; [|reflexivity].
    unfold best_odds_of_event in B.
    destruct (e_bookmakers event) as [bookmakers|]; simpl in B.
    + eapply bookmakers_loop_Raise; eassumption.
    + now inversion B.
Qed.

Lemma event_record_aggregation_failure now event e :
  is_upcoming event = true ->
  best_odds_of_event event = Raise e ->
  event_record now event = Raise e.
Proof.
  intros U B. unfold event_record. unfold is_upcoming in U.
  destruct (e_commence_time event); [|discriminate].
  simpl. now rewrite B.
Qed.

(** C5.  An event that passes the Normalizer and is malformed (no
    [bookmakers] field, a bookmaker with empty [markets], or a first market
    without [outcomes]) makes the Aggregator raise a KeyError or an
    IndexError; the exception ends the iteration over the events of the
    sport, so that no later event is processed, and it ends the loop over
    the sports as well. *)
Theorem C5_malformed_event_aborts_iteration :
  forall event : Event,
    is_upcoming event = true ->
    malformed event ->
    exists e : exn,
      structural_failure e = true /\
      best_odds_of_event event = Raise e /\
      (forall clock k before after,
          process_upcoming_events_data clock k (before ++ event :: after) =
          and_then (process_upcoming_events_data clock k before)
            (fun _ => ([], Raised e))) /\
      (forall w key region cutoff sport rest k k1 before after,
          get_upcoming_events_data w k key sport region =
            Ok ((before ++ event :: after)%list, k1) ->
          sports_loop w key region cutoff (sport :: rest) k =
          and_then (arbitrage_opportunities w cutoff k1 before)
            (fun _ => ([], Raised e))).
Proof.
  intros event U M. destruct (malformed_fails _ M) as (e & Hs & Hb).
  exists e. split; [assumption|]. split; [assumption|].
  assert (Hp : forall clock k before after,
             process_upcoming_events_data clock k (before ++ event :: after) =
             and_then (process_upcoming_events_data clock k before)
               (fun _ => ([], Raised e))).
  { intros clock k before after. rewrite process_app.
    destruct (process_upcoming_events_data clock k before) as [xs [k'|e']];
      [|reflexivity].
    rewrite !and_then_returned. simpl. rewrite U.
    now rewrite (event_record_aggregation_failure _ _ _ U Hb). }
  split; [exact Hp|].
  intros w key region cutoff sport rest k k1 before after G.
  rewrite (sports_loop_cons _ _ _ _ _ _ _ _ _ G).
  unfold arbitrage_opportunities. rewrite Hp, filter_trace_and_then.
  rewrite and_then_assoc.
  destruct (filter_trace (is_arbitrage cutoff)
              (process_upcoming_events_data (clock w) k1 before))
    as [xs [k'|e']]; reflexivity.
Qed.

(** An event without [bookmakers] between two good ones: the first is
    yielded, the third is never reached. *)
Lemma C5_witness :
  is_upcoming Scenarios.event_malformed = true /\
  malformed Scenarios.event_malformed /\
  process_upcoming_events_data (fun _ => 0) 0
    [Scenarios.event_C; Scenarios.event_malformed; Scenarios.event_A] =
  ([Scenarios.record_C], Raised (KeyError "bookmakers")).
Proof.
  assert (U : is_upcoming Scenarios.event_malformed = true) by reflexivity.
  assert (M : malformed Scenarios.event_malformed) by (left; reflexivity).
  split; [exact U|]. split; [exact M|].
  destruct (C5_malformed_event_aborts_iteration Scenarios.event_malformed U M)
    as (e & _ & Hb & Hp & _).
  cbv in Hb. injection Hb as <-.
  exact (Hp (fun _ => 0) 0%nat [Scenarios.event_C] [Scenarios.event_A]).
Defined.

(** C6, as the code has it.  An event whose [bookmakers] is the empty list
    is not rejected by the Normalizer and does not make the Aggregator fail:
    the loops do nothing and return the empty mapping; with its other fields
    present the event yields a record whose total is 0, which the Evaluator
    emits for no cutoff. *)
Theorem C6_no_bookmakers_yields_empty_record :
  forall event : Event,
    e_bookmakers event = Some [] ->
    best_odds_of_event event = Ok [] /\
    (forall clock k rest home away lg,
        is_upcoming event = true ->
        e_home_team event = Some home ->
        e_away_team event = Some away ->
        e_sport_key event = Some lg ->
        exists r,
          process_upcoming_events_data clock k (event :: rest) =
            yield_then [r] (process_upcoming_events_data clock (S k) rest) /\
          best_outcome_odds r = [] /\
          total_implied_odds r = 0 /\
          forall cutoff, is_arbitrage cutoff r = false).
Proof.
  intros event Hb.
  assert (B : best_odds_of_event event = Ok [])
    by (unfold best_odds_of_event; now rewrite Hb).
  split; [exact B|].
  intros clock k rest home away lg U Hh Ha Hl. simpl. rewrite U.
  unfold event_record. unfold is_upcoming in U.
  destruct (e_commence_time event) as [t|]; [|discriminate].
  rewrite B, Hh, Ha, Hl. simpl.
  eexists. split; [reflexivity|]. simpl. repeat split.
Qed.

Lemma C6_witness :
  e_bookmakers Scenarios.event_no_bookmakers = Some [] /\
  best_odds_of_event Scenarios.event_no_bookmakers = Ok [].
Proof.
  split; [reflexivity|].
  apply (C6_no_bookmakers_yields_empty_record Scenarios.event_no_bookmakers).
  reflexivity.
Defined.

(** C6 does not hold as the specification words it: with an empty list of
    bookmakers the event passes the Normalizer, the Aggregator raises
    nothing, and the run returns. *)
Lemma C6_counterexample :
  is_upcoming Scenarios.event_no_bookmakers = true /\
  e_bookmakers Scenarios.event_no_bookmakers = Some [] /\
  ~ (exists e, best_odds_of_event Scenarios.event_no_bookmakers = Raise e) /\
  ending (process_upcoming_events_data (fun _ => 0) 0
            [Scenarios.event_no_bookmakers]) = Returned 1 /\
  List.length (yielded (process_upcoming_events_data (fun _ => 0) 0
                     [Scenarios.event_no_bookmakers])) = 1%nat.
Proof.
  repeat split; try reflexivity.
  intros [e H]. discriminate H.
Qed.

(** ** The Orchestrator and the fetch boundary *)




Lemma handle_faulty_response_fetch_error {A} (response : Response A) :
  fetch_error response (handle_faulty_response response).
Proof.
  unfold fetch_error, handle_faulty_response, api_args.
  assert (Hstr : forall text fields message,
             json response = PDict fields ->
             dict_get "message" fields = Some message ->
             api_exception_str
               (mkAPIArgs text (status_code response) (body_fields response)) =
             Ok ("('" ++ text ++ "', '" ++ message ++ "')")).
  { intros text fields message Hj Hm. unfold api_exception_str, body_fields.
    simpl. rewrite Hj, Hm. reflexivity. }
  destruct (Z.eqb_spec (status_code response) 401) as [E1|N1].
  - eexists _, _. split; [reflexivity|]. rewrite E1.
    split; [tauto|]. split; [split; [discriminate | lia]|].
    split; [split; [discriminate | tauto]|]. apply Hstr.
  - destruct (Z.eqb_spec (status_code response) 429) as [E2|N2].
    + eexists _, _. split; [reflexivity|]. rewrite E2.
      split; [split; [discriminate | lia]|]. split; [tauto|].
      split; [split; [discriminate | tauto]|]. apply Hstr.
    + eexists _, _. split; [reflexivity|].
      split; [split; [discriminate | tauto]|].
      split; [split; [discriminate | tauto]|].
      split; [tauto|]. apply Hstr.
Qed.

(** C8.  [handle_faulty_response] raises AuthenticationException exactly
    for status 401, RateLimitException exactly for 429 and APIException for
    any other status, each holding the response and so the upstream message;
    when the sports fetch or the odds fetch of a sport has a non-success
    status, that exception ends the stream as it is: nothing catches it and
    no further fetch is made. *)
Theorem C8_fetch_errors_propagate :
  forall (w : World) (key region : string) (cutoff : Q),
    (forall A (response : Response A),
        fetch_error response (handle_faulty_response response)) /\
    (response_ok (sports_endpoint w key) = false ->
     get_sports w key = Raise (handle_faulty_response (sports_endpoint w key)) /\
     get_upcoming_arbitrage_opportunities w key region cutoff =
       ([], Raised (handle_faulty_response (sports_endpoint w key)))) /\
    (forall before sport rest k,
        response_ok (odds_endpoint w key sport region "decimal") = false ->
        (forall k', get_upcoming_events_data w k' key sport region =
           Raise (handle_faulty_response
                    (odds_endpoint w key sport region "decimal"))) /\
        sports_loop w key region cutoff (before ++ sport :: rest) k =
        and_then (sports_loop w key region cutoff before k)
          (fun _ =>
             ([], Raised (handle_faulty_response
                            (odds_endpoint w key sport region "decimal"))))).
Proof.
  intros w key region cutoff.
  split; [intros A response; apply handle_faulty_response_fetch_error|].
  split.
  - intros H.
    assert (G : get_sports w key =
                Raise (handle_faulty_response (sports_endpoint w key)))
      by (unfold get_sports; now rewrite H).
    split; [exact G|].
    unfold get_upcoming_arbitrage_opportunities. now rewrite G.
  - intros before sport rest k H.
    assert (G : forall k', get_upcoming_events_data w k' key sport region =
                Raise (handle_faulty_response
                         (odds_endpoint w key sport region "decimal")))
      by (intros k'; unfold get_upcoming_events_data; now rewrite H).
    split; [exact G|].
    rewrite sports_loop_app.
    destruct (sports_loop w key region cutoff before k) as [xs [k'|e]];
      [|reflexivity].
    rewrite !and_then_returned. simpl. now rewrite G.
Qed.

(** A rejected API key: the stream ends at once with an
    AuthenticationException that prints the upstream message. *)
Lemma C8_witness :
  response_ok (sports_endpoint Scenarios.world_unauthorized "k") = false /\
  get_upcoming_arbitrage_opportunities Scenarios.world_unauthorized "k" "eu"
    (5 # 100) =
  ([], Raised (APIError AuthenticationException
                 (mkAPIArgs
                    "Failed to authenticate with the API. Is the API key valid?"
                    401 (Some [("message", "Invalid key")])))).
Proof.
  split; [reflexivity|].
  apply (C8_fetch_errors_propagate Scenarios.world_unauthorized "k" "eu"
           (5 # 100)).
  reflexivity.
Defined.

(** ** Two runs on the same input *)

(** The clock reading changes nothing but [hours_to_start]. *)
Lemma event_record_clock now1 now2 event :
  match event_record now1 event, event_record now2 event with
  | Ok r1, Ok r2 => without_hours r1 = without_hours r2
  | Raise e1, Raise e2 => e1 = e2
  | _, _ => False
  end.
Proof.
  unfold event_record.
  destruct (e_commence_time event); simpl; [|reflexivity].
  destruct (best_odds_of_event event) as [best|]; simpl; [|reflexivity].
  destruct (total_implied best); simpl; [|reflexivity].
  destruct (e_home_team event); simpl; [|reflexivity].
  destruct (e_away_team event); simpl; [|reflexivity].
  destruct (e_sport_key event); simpl; reflexivity.
Qed.

Lemma process_clock c1 c2 events : forall k,
  map without_hours (yielded (process_upcoming_events_data c1 k events)) =
  map without_hours (yielded (process_upcoming_events_data c2 k events)) /\
  ending (process_upcoming_events_data c1 k events) =
  ending (process_upcoming_events_data c2 k events).
Proof.
  induction events as [|event events IH]; intros k; simpl; [auto|].
  destruct (is_upcoming event); [|apply IH].
  pose proof (event_record_clock (c1 k) (c2 k) event) as H.
  destruct (event_record (c1 k) event) as [r1|e1],
           (event_record (c2 k) event) as [r2|e2]; try contradiction.
  - destruct (IH (S k)) as [Hy He]. unfold yielded, ending, yield_then in *.
    simpl. now rewrite H, Hy, He.
  - subst. auto.
Qed.

Lemma process_clock_ext c1 c2 events :
  (forall n, c1 n = c2 n) ->
  forall k, process_upcoming_events_data c1 k events =
            process_upcoming_events_data c2 k events.
Proof.
  intros Hc. induction events as [|event events IH]; intros k; simpl;
    [reflexivity|].
  destruct (is_upcoming event); [|apply IH].
  now rewrite Hc, IH.
Qed.

Lemma filter_without_hours cutoff (l1 : list Opportunity) : forall l2,
  map without_hours l1 = map without_hours l2 ->
  map without_hours (filter (is_arbitrage cutoff) l1) =
  map without_hours (filter (is_arbitrage cutoff) l2).
Proof.
  induction l1 as [|r1 l1 IH]; intros [|r2 l2] H; simpl in *;
    try discriminate; [reflexivity|].
  injection H as Hn Hs Hlg Hb Ht Hl.
  assert (E : is_arbitrage cutoff r1 = is_arbitrage cutoff r2)
    by (unfold is_arbitrage; now rewrite Ht).
  rewrite E. destruct (is_arbitrage cutoff r2); simpl.
  - unfold without_hours at 1 3. now rewrite Hn, Hs, Hlg, Hb, Ht, (IH l2 Hl).
  - now apply IH.
Qed.

(** C9, as the code has it.  Two runs of the pipeline on the same events
    and cutoff emit records that agree on every field but [hours_to_start],
    which is computed from the wall clock read while the event is evaluated,
    and they end the same way; the runs are identical when they read the
    same clock values. *)
Theorem C9_runs_agree_up_to_clock :
  forall (w : World) (c1 c2 : nat -> Q) (cutoff : Q) (k : nat)
         (events : list Event),
    map without_hours
      (yielded (arbitrage_opportunities (with_clock w c1) cutoff k events)) =
    map without_hours
      (yielded (arbitrage_opportunities (with_clock w c2) cutoff k events)) /\
    ending (arbitrage_opportunities (with_clock w c1) cutoff k events) =
    ending (arbitrage_opportunities (with_clock w c2) cutoff k events) /\
    ((forall n, c1 n = c2 n) ->
     arbitrage_opportunities (with_clock w c1) cutoff k events =
     arbitrage_opportunities (with_clock w c2) cutoff k events).
Proof.
  intros w c1 c2 cutoff k events.
  unfold arbitrage_opportunities, filter_trace, yielded, ending. simpl.
  destruct (process_clock c1 c2 events k) as [Hy He].
  split; [now apply filter_without_hours|]. split; [exact He|].
  intros Hc. now rewrite (process_clock_ext c1 c2 events Hc k).
Qed.

Lemma C9_witness :
  (forall n : nat, (fun _ : nat => 0) n = (fun _ : nat => 0) n) /\
  arbitrage_opportunities (with_clock (Scenarios.world 0) (fun _ => 0))
    (2 # 100) 0 [Scenarios.event_A] =
  arbitrage_opportunities (with_clock (Scenarios.world 0) (fun _ => 0))
    (2 # 100) 0 [Scenarios.event_A].
Proof.
  split; [reflexivity|].
  apply (C9_runs_agree_up_to_clock (Scenarios.world 0) (fun _ => 0)
           (fun _ => 0) (2 # 100) 0 [Scenarios.event_A]).
  reflexivity.
Defined.

(** C9 does not hold as the specification words it: the same event and
    cutoff, evaluated with the clock at 0 and then at 3600, give records
    whose [hours_to_start] are 2 and 1. *)
Lemma C9_counterexample :
  map hours_to_start
    (yielded (arbitrage_opportunities (Scenarios.world 0) (2 # 100) 0
                [Scenarios.event_A])) = [7200 # 3600] /\
  map hours_to_start
    (yielded (arbitrage_opportunities (Scenarios.world (3600 # 1)) (2 # 100) 0
                [Scenarios.event_A])) = [3600 # 3600] /\
  ~ (7200 # 3600 == 3600 # 3600) /\
  arbitrage_opportunities (Scenarios.world 0) (2 # 100) 0
    [Scenarios.event_A] <>
  arbitrage_opportunities (Scenarios.world (3600 # 1)) (2 # 100) 0
    [Scenarios.event_A].
Proof.
  split; [vm_compute; reflexivity|]. split; [vm_compute; reflexivity|].
  split; [unfold Qeq; simpl; lia|].
  intros H. apply (f_equal (fun t => map hours_to_start (yielded t))) in H.
  vm_compute in H. discriminate H.
Qed.

(** * Further properties of the code *)

(** ** The fetch boundary *)

Lemma future_events_facts clock events : forall k kept k',
  future_events clock k events = (kept, k') ->
  Subsequence kept events /\
  k' = (k + List.length (filter has_commence_time events))%nat /\
  (forall e, In e kept ->
     exists t j, e_commence_time e = Some t /\ (k <= j < k')%nat /\
                 clock j < inject_Z t) /\
  (forall e t, In e events -> e_commence_time e = Some t ->
     (forall j, clock j < inject_Z t) -> In e kept).
Proof.
  induction events as [|event events IH]; simpl; intros k kept k' H.
  - inversion H; subst. repeat split.
    + constructor.
    + lia.
    + intros e [].
    + intros e t [].
  - unfold has_commence_time at 1.
    destruct (e_commence_time event) as [t|] eqn:Et.
    + destruct (future_events clock (S k) events) as [kept0 k0] eqn:F.
      destruct (IH _ _ _ F) as (Hsub & Hk & Hin & Hall).
      assert (Hlater : forall e, In e kept0 ->
                exists t' j, e_commence_time e = Some t' /\
                             (k <= j < k0)%nat /\ clock j < inject_Z t').
      { intros e He. destruct (Hin e He) as (t' & j & E & Hj & L).
        exists t', j. repeat split; auto; lia. }
      assert (Hk0 : (k < k0)%nat) by lia.
      destruct (Qltb (clock k) (inject_Z t)) eqn:L; inversion H; subst.
      * repeat split.
        -- now constructor.
        -- simpl. lia.
        -- intros e [<-|He]; [|now apply Hlater].
           exists t, k. repeat split; auto. now apply Qltb_lt.
        -- intros e t' [<-|He] E' Hfut; [now left|].
           right. eapply Hall; eauto.
      * repeat split.
        -- now constructor.
        -- simpl. lia.
        -- exact Hlater.
        -- intros e t' [<-|He] E' Hfut.
           ++ rewrite Et in E'. inversion E'; subst.
              apply Qltb_ge in L. specialize (Hfut k).
              exfalso. eapply Qlt_irrefl, Qlt_le_trans; eassumption.
           ++ eapply Hall; eauto.
    + destruct (IH _ _ _ H) as (Hsub & Hk & Hin & Hall). repeat split.
      * now constructor.
      * exact Hk.
      * exact Hin.
      * intros e t' [<-|He] E' Hfut; [congruence|]. eapply Hall; eauto.
Qed.

(** X1.  On a success response whose body is a list, the fetch returns the
    events of the body that have a [commence_time] later than the clock
    value read for them, in the order of the body; the clock is read once
    per event that has a [commence_time]; an event later than every clock
    value is kept. *)
Theorem X1_fetch_keeps_future_events :
  forall (w : World) (k : nat) (key sport region : string)
         (events : list Event),
    response_ok (odds_endpoint w key sport region "decimal") = true ->
    json (odds_endpoint w key sport region "decimal") = PList events ->
    exists kept k',
      get_upcoming_events_data w k key sport region = Ok (kept, k') /\
      Subsequence kept events /\
      k' = (k + List.length (filter has_commence_time events))%nat /\
      (forall e, In e kept ->
         exists t j, e_commence_time e = Some t /\ (k <= j < k')%nat /\
                     clock w j < inject_Z t) /\
      (forall e t, In e events -> e_commence_time e = Some t ->
         (forall j, clock w j < inject_Z t) -> In e kept).
Proof.
  intros w k key sport region events Hok Hjson.
  destruct (future_events (clock w) k events) as [kept k'] eqn:F.
  exists kept, k'. split.
  - unfold get_upcoming_events_data. rewrite Hok, Hjson. simpl. now rewrite F.
  - now apply future_events_facts.
Qed.

Lemma X1_witness :
  response_ok
    (odds_endpoint (Scenarios.world (7200 # 1)) "k" "nba" "eu" "decimal") = true /\
  json (odds_endpoint (Scenarios.world (7200 # 1)) "k" "nba" "eu" "decimal") =
    PList [Scenarios.event_A; Scenarios.event_B] /\
  exists kept k',
    get_upcoming_events_data (Scenarios.world (7200 # 1)) 0 "k" "nba" "eu" =
      Ok (kept, k') /\
    Subsequence kept [Scenarios.event_A; Scenarios.event_B] /\
    k' = 2%nat.
Proof.
  split; [reflexivity|]. split; [reflexivity|].
  destruct (X1_fetch_keeps_future_events (Scenarios.world (7200 # 1)) 0
              "k" "nba" "eu" [Scenarios.event_A; Scenarios.event_B]
              eq_refl eq_refl) as (kept & k' & G & Hsub & Hk & _).
  exists kept, k'. split; [exact G|]. split; [exact Hsub | exact Hk].
Defined.

Lemma future_events_of_keys_cases keys :
  (future_events_of_keys keys = Ok [] /\
   forall key, In key keys -> str_contains "commence_time" key = false) \/
  (future_events_of_keys keys = Raise TypeError /\
   exists key, In key keys /\ str_contains "commence_time" key = true).
Proof.
  induction keys as [|key keys IH]; cbn [future_events_of_keys].
  - left. split; [reflexivity | intros key []].
  - destruct (str_contains "commence_time" key) eqn:C.
    + right. split; [reflexivity|]. exists key. split; [now left | exact C].
    + destruct IH as [[E H]|[E (key' & Hin & H)]].
      * left. split; [exact E|]. intros key' [<-|Hin]; auto.
      * right. split; [exact E|]. exists key'. split; [now right | exact H].
Qed.

(** X2.  On a success response whose body is an object, the fetch never
    returns an event: it returns the empty list, without reading the clock,
    when no key of the object contains [commence_time], and raises a
    TypeError when one does. *)
Theorem X2_object_body_gives_no_events :
  forall (w : World) (k : nat) (key sport region : string)
         (fields : list (string * string)),
    response_ok (odds_endpoint w key sport region "decimal") = true ->
    json (odds_endpoint w key sport region "decimal") = PDict fields ->
    (get_upcoming_events_data w k key sport region = Ok ([], k) <->
     forall name, In name (dict_keys fields) ->
                  str_contains "commence_time" name = false) /\
    (get_upcoming_events_data w k key sport region = Raise TypeError <->
     exists name, In name (dict_keys fields) /\
                  str_contains "commence_time" name = true).
Proof.
  intros w k key sport region fields Hok Hjson.
  unfold get_upcoming_events_data. rewrite Hok, Hjson. simpl.
  destruct (future_events_of_keys_cases (dict_keys fields))
    as [[E H]|[E (name & Hin & H)]]; rewrite E; simpl.
  - split; [tauto|]. split; [discriminate|].
    intros (name & Hin & C). rewrite (H name Hin) in C. discriminate.
  - split.
    + split; [discriminate|].
      intros Hall. rewrite (Hall name Hin) in H. discriminate.
    + split; [eauto | reflexivity].
Qed.

Lemma X2_witness :
  response_ok
    (odds_endpoint (Scenarios.world 0) "k" "soccer_epl" "eu" "decimal") = true /\
  json (odds_endpoint (Scenarios.world 0) "k" "soccer_epl" "eu" "decimal") =
    PDict Scenarios.error_body /\
  ~ (exists name, In name (dict_keys Scenarios.error_body) /\
                  str_contains "commence_time" name = true).
Proof.
  split; [reflexivity|]. split; [reflexivity|].
  intros Hex.
  destruct (X2_object_body_gives_no_events (Scenarios.world 0) 0
              "k" "soccer_epl" "eu" Scenarios.error_body eq_refl eq_refl)
    as [_ [_ Hraise]].
  apply Hraise in Hex. discriminate Hex.
Defined.





(** X4.  The text of an exception raised by [handle_faulty_response] is
    [('text', 'message')] when the body of the response is an object with a
    ["message"]; asking for it raises [KeyError "message"] when the object
    has none, and a TypeError when the body is a list. *)
Theorem X4_exception_text :
  forall (A : Type) (response : Response A),
    exists cls args,
      handle_faulty_response response = APIError cls args /\
      arg_status args = status_code response /\
      match json response with
      | PList _ => api_exception_str args = Raise TypeError
      | PDict fields =>
          match dict_get "message" fields with
          | Some message =>
              api_exception_str args =
              Ok ("('" ++ arg_text args ++ "', '" ++ message ++ "')")
          | None => api_exception_str args = Raise (KeyError "message")
          end
      end.
Proof.
  intros A response. unfold handle_faulty_response.
  destruct (status_code response =? 401)%Z;
    [|destruct (status_code response =? 429)%Z];
    eexists _, _; (split; [reflexivity|]); (split; [reflexivity|]);
    unfold api_exception_str, api_args, body_fields; simpl;
    destruct (json response) as [items|fields]; try reflexivity;
    destruct (dict_get "message" fields); reflexivity.
Qed.

(** ** More on the best price per outcome *)

Lemma existsb_eqb_In name (names : list string) :
  existsb (String.eqb name) names = true <-> In name names.
Proof.
  rewrite existsb_exists. split.
  - intros (x & Hin & E). apply String.eqb_eq in E. now subst.
  - intros H. exists name. split; [exact H | apply String.eqb_refl].
Qed.

Lemma first_seen_ext names : forall seen seen',
  (forall name, In name seen <-> In name seen') ->
  first_seen seen names = first_seen seen' names.
Proof.
  induction names as [|name names IH]; intros seen seen' H; simpl;
    [reflexivity|].
  assert (E : existsb (String.eqb name) seen = existsb (String.eqb name) seen').
  { destruct (existsb (String.eqb name) seen) eqn:E1;
      destruct (existsb (String.eqb name) seen') eqn:E2; try reflexivity.
    - apply existsb_eqb_In, H, existsb_eqb_In in E1. congruence.
    - apply existsb_eqb_In, H, existsb_eqb_In in E2. congruence. }
  rewrite E. destruct (existsb (String.eqb name) seen').
  - now apply IH.
  - f_equal. apply IH. intros n. simpl. now rewrite H.
Qed.

Lemma apply_quote_keys best q :
  dict_keys (apply_quote best q) =
  if existsb (String.eqb (quote_name q)) (dict_keys best)
  then dict_keys best
  else (dict_keys best ++ [quote_name q])%list.
Proof.
  unfold apply_quote, update_best.
  destruct (dict_get (quote_name q) best) as [[b p]|] eqn:G.
  - assert (Hin : In (quote_name q) (dict_keys best)).
    { apply dict_get_In in G.
      change (quote_name q) with (fst (quote_name q, (b, p))).
      now apply in_map. }
    rewrite (proj2 (existsb_eqb_In _ _) Hin).
    destruct (Qltb p (quote_price q)); [|reflexivity].
    now apply dict_keys_set_old.
  - apply dict_get_None in G.
    destruct (existsb (String.eqb (quote_name q)) (dict_keys best)) eqn:E.
    + apply existsb_eqb_In in E. contradiction.
    + now apply dict_keys_set_new.
Qed.

Lemma fold_quotes_keys qs : forall best,
  dict_keys (fold_left apply_quote qs best) =
  (dict_keys best ++ first_seen (dict_keys best) (map quote_name qs))%list.
Proof.
  induction qs as [|q qs IH]; intros best; simpl.
  - now rewrite app_nil_r.
  - rewrite IH, apply_quote_keys.
    destruct (existsb (String.eqb (quote_name q)) (dict_keys best));
      [reflexivity|].
    rewrite <- app_assoc. simpl. do 2 f_equal.
    apply first_seen_ext. intros name. rewrite in_app_iff. simpl. tauto.
Qed.

(** X5.  The keys of the mapping are the outcome names in the order in
    which the loops first meet them, so the outcomes of the first bookmaker
    come first. *)
Theorem X5_keys_in_order_of_first_quote :
  forall (event : Event) (bookmakers : list Bookmaker) (quotes : list Quote),
    e_bookmakers event = Some bookmakers ->
    quotes_of_bookmakers bookmakers = Some quotes ->
    exists best : BestOdds,
      best_odds_of_event event = Ok best /\
      dict_keys best = first_seen [] (map quote_name quotes).
Proof.
  intros event bookmakers quotes Hb Hq.
  exists (fold_left apply_quote quotes []).
  split; [now apply best_odds_of_quotes with bookmakers|].
  apply (fold_quotes_keys quotes []).
Qed.

Lemma X5_witness :
  e_bookmakers Scenarios.event_A = Some Scenarios.bookmakers_A /\
  quotes_of_bookmakers Scenarios.bookmakers_A = Some Scenarios.quotes_A /\
  exists best : BestOdds,
    best_odds_of_event Scenarios.event_A = Ok best /\
    dict_keys best = ["Home"; "Away"].
Proof.
  split; [reflexivity|]. split; [reflexivity|].
  exact (X5_keys_in_order_of_first_quote Scenarios.event_A
           Scenarios.bookmakers_A Scenarios.quotes_A eq_refl eq_refl).
Defined.

Lemma kept_or_raised_refl entry : kept_or_raised entry entry.
Proof. now left. Qed.

Lemma kept_or_raised_trans e1 e2 e3 :
  kept_or_raised e1 e2 -> kept_or_raised e2 e3 -> kept_or_raised e1 e3.
Proof.
  unfold kept_or_raised. intros [->|H12] [->|H23]; auto.
  right. eapply Qlt_trans; eassumption.
Qed.

Lemma apply_quote_kept_or_raised best q name entry :
  dict_get name best = Some entry ->
  exists entry',
    dict_get name (apply_quote best q) = Some entry' /\
    kept_or_raised entry entry'.
Proof.
  intros G. unfold apply_quote, update_best.
  destruct (String.eqb_spec name (quote_name q)) as [E|Hne].
  - rewrite <- E, G. destruct entry as [b p].
    destruct (Qltb p (quote_price q)) eqn:L.
    + exists (quote_bookie q, quote_price q).
      rewrite dict_get_set_same. split; [reflexivity|].
      right. simpl. now apply Qltb_lt.
    + exists (b, p). split; [exact G | apply kept_or_raised_refl].
  - exists entry. split; [|apply kept_or_raised_refl].
    destruct (dict_get (quote_name q) best) as [[b p]|].
    + destruct (Qltb p (quote_price q)); [|exact G].
      now rewrite dict_get_set_other.
    + now rewrite dict_get_set_other.
Qed.

Lemma fold_quotes_kept_or_raised qs : forall best name entry,
  dict_get name best = Some entry ->
  exists entry',
    dict_get name (fold_left apply_quote qs best) = Some entry' /\
    kept_or_raised entry entry'.
Proof.
  induction qs as [|q qs IH]; intros best name entry G; simpl.
  - exists entry. split; [exact G | apply kept_or_raised_refl].
  - destruct (apply_quote_kept_or_raised best q name entry G)
      as (e1 & G1 & R1).
    destruct (IH _ _ _ G1) as (e2 & G2 & R2).
    exists e2. split; [exact G2 | eapply kept_or_raised_trans; eassumption].
Qed.

Lemma quotes_of_bookmakers_app bms : forall more quotes,
  quotes_of_bookmakers (bms ++ more) = Some quotes ->
  exists q1 q2,
    quotes_of_bookmakers bms = Some q1 /\
    quotes_of_bookmakers more = Some q2 /\
    quotes = (q1 ++ q2)%list.
Proof.
  induction bms as [|b bms IH]; simpl; intros more quotes H.
  - exists [], quotes. auto.
  - destruct (bookmaker_quotes b) as [qb|]; [|discriminate].
    destruct (quotes_of_bookmakers (bms ++ more)) as [qr|] eqn:R;
      [|discriminate].
    destruct (IH _ _ R) as (q1 & q2 & -> & -> & ->).
    inversion H; subst. exists (qb ++ q1)%list, q2.
    repeat split; auto. now rewrite app_assoc.
Qed.

(** X6.  Further bookmakers never remove an outcome from the mapping and
    never lower its price: against the mapping of the first bookmakers
    alone, each entry is either the same pair or a pair with a strictly
    higher price. *)
Theorem X6_more_bookmakers_keep_or_raise :
  forall (event1 event2 : Event) (bookmakers more : list Bookmaker)
         (best2 : BestOdds),
    e_bookmakers event1 = Some bookmakers ->
    e_bookmakers event2 = Some (bookmakers ++ more)%list ->
    best_odds_of_event event2 = Ok best2 ->
    exists best1 : BestOdds,
      best_odds_of_event event1 = Ok best1 /\
      forall name entry,
        dict_get name best1 = Some entry ->
        exists entry',
          dict_get name best2 = Some entry' /\ kept_or_raised entry entry'.
Proof.
  intros event1 event2 bookmakers more best2 H1 H2 B2.
  destruct (best_odds_of_event_Ok _ _ B2) as (bms2 & quotes & Hb & Hq & ->).
  rewrite H2 in Hb. inversion Hb; subst bms2.
  destruct (quotes_of_bookmakers_app _ _ _ Hq) as (q1 & q2 & Hq1 & Hq2 & ->).
  exists (fold_left apply_quote q1 []).
  split; [now apply best_odds_of_quotes with bookmakers|].
  intros name entry G. rewrite fold_left_app.
  now apply fold_quotes_kept_or_raised.
Qed.

(** Bookmaker C raises Away from 2.00 to 2.10 and leaves Home with A. *)
Lemma X6_witness :
  e_bookmakers Scenarios.event_A = Some Scenarios.bookmakers_A /\
  e_bookmakers
    (Scenarios.event "upcoming"
       (Scenarios.bookmakers_A ++ [Samples.bookmaker_C])) =
    Some (Scenarios.bookmakers_A ++ [Samples.bookmaker_C])%list /\
  best_odds_of_event
    (Scenarios.event "upcoming"
       (Scenarios.bookmakers_A ++ [Samples.bookmaker_C])) =
    Ok [("Home", ("A", 21 # 10)); ("Away", ("C", 21 # 10))] /\
  exists best1 : BestOdds,
    best_odds_of_event Scenarios.event_A = Ok best1 /\
    forall name entry,
      dict_get name best1 = Some entry ->
      exists entry',
        dict_get name [("Home", ("A", 21 # 10)); ("Away", ("C", 21 # 10))] =
          Some entry' /\
        kept_or_raised entry entry'.
Proof.
  split; [reflexivity|]. split; [reflexivity|]. split; [reflexivity|].
  exact (X6_more_bookmakers_keep_or_raise Scenarios.event_A
           (Scenarios.event "upcoming"
              (Scenarios.bookmakers_A ++ [Samples.bookmaker_C]))
           Scenarios.bookmakers_A [Samples.bookmaker_C]
           [("Home", ("A", 21 # 10)); ("Away", ("C", 21 # 10))]
           eq_refl eq_refl eq_refl).
Defined.

Lemma quotes_of_bookmakers_perm bms bms' :
  Permutation bms bms' ->
  forall quotes,
    quotes_of_bookmakers bms = Some quotes ->
    exists quotes',
      quotes_of_bookmakers bms' = Some quotes' /\ Permutation quotes quotes'.
Proof.
  induction 1 as [|b l l' HP IH|x y l|l l' l'' HP1 IH1 HP2 IH2];
    intros quotes H.
  - exists quotes. split; [exact H | apply Permutation_refl].
  - simpl in *. destruct (bookmaker_quotes b) as [qb|]; [|discriminate].
    destruct (quotes_of_bookmakers l) as [ql|]; [|discriminate].
    destruct (IH _ eq_refl) as (ql' & -> & HPq).
    inversion H; subst. exists (qb ++ ql')%list.
    split; [reflexivity | now apply Permutation_app_head].
  - simpl in *. destruct (bookmaker_quotes y) as [qy|]; [|discriminate].
    destruct (bookmaker_quotes x) as [qx|]; [|discriminate].
    destruct (quotes_of_bookmakers l) as [ql|]; [|discriminate].
    inversion H; subst. exists (qx ++ qy ++ ql)%list.
    split; [reflexivity | apply Permutation_app_swap_app].
  - destruct (IH1 _ H) as (q1 & H1 & P1).
    destruct (IH2 _ H1) as (q2 & H2 & P2).
    exists q2. split; [exact H2 | eapply Permutation_trans; eassumption].
Qed.

Lemma best_entry_is_maximum quotes name bookie price :
  dict_get name (fold_left apply_quote quotes []) = Some (bookie, price) ->
  In (bookie, name, price) quotes /\
  forall q, In q quotes -> quote_name q = name -> quote_price q <= price.
Proof.
  intros G. destruct (best_inv_of_quotes quotes) as (_ & _ & Hmax).
  destruct (Hmax _ _ _ G) as (before & after & E & Hb & Ha).
  cbn [quote_name quote_price fst snd] in *.
  split.
  - assert (Hin : In (bookie, name, price) (quotes_for name quotes)).
    { rewrite E. apply in_app_iff. right. now left. }
    now apply quotes_for_In in Hin.
  - intros q Hq Hn.
    assert (Hq' : In q (quotes_for name quotes))
      by (apply quotes_for_In; auto).
    rewrite E in Hq'. apply in_app_iff in Hq'.
    destruct Hq' as [Hq' | [ <- | Hq' ] ].
    + now apply Qlt_le_weak, Hb.
    + apply Qle_refl.
    + now apply Ha.
Qed.

(** X7.  The best price of an outcome does not depend on the order of the
    bookmakers: two events whose bookmakers are the same up to order get
    mappings with the same outcome names and, name by name, equal prices
    (the bookmaker named may differ when prices tie). *)
Theorem X7_best_price_independent_of_order :
  forall (event1 event2 : Event) (bookmakers1 bookmakers2 : list Bookmaker)
         (best1 : BestOdds),
    e_bookmakers event1 = Some bookmakers1 ->
    e_bookmakers event2 = Some bookmakers2 ->
    Permutation bookmakers1 bookmakers2 ->
    best_odds_of_event event1 = Ok best1 ->
    exists best2 : BestOdds,
      best_odds_of_event event2 = Ok best2 /\
      (forall name, In name (dict_keys best1) <-> In name (dict_keys best2)) /\
      (forall name bookie1 price1 bookie2 price2,
          dict_get name best1 = Some (bookie1, price1) ->
          dict_get name best2 = Some (bookie2, price2) ->
          price1 == price2).
Proof.
  intros event1 event2 bms1 bms2 best1 H1 H2 HP B1.
  destruct (best_odds_of_event_Ok _ _ B1) as (bms & q1 & Hb & Hq1 & ->).
  rewrite H1 in Hb. inversion Hb; subst bms.
  destruct (quotes_of_bookmakers_perm _ _ HP _ Hq1) as (q2 & Hq2 & HPq).
  exists (fold_left apply_quote q2 []).
  split; [now apply best_odds_of_quotes with bms2|].
  destruct (best_inv_of_quotes q1) as (_ & K1 & _).
  destruct (best_inv_of_quotes q2) as (_ & K2 & _).
  split.
  - intros name. rewrite K1, K2. split; intros H.
    + eapply Permutation_in; [apply Permutation_map; exact HPq | exact H].
    + eapply Permutation_in;
        [apply Permutation_map, Permutation_sym; exact HPq | exact H].
  - intros name b1 p1 b2 p2 G1 G2.
    destruct (best_entry_is_maximum _ _ _ _ G1) as [I1 M1].
    destruct (best_entry_is_maximum _ _ _ _ G2) as [I2 M2].
    apply Qle_antisym.
    + apply (M2 (b1, name, p1)); [|reflexivity].
      eapply Permutation_in; eassumption.
    + apply (M1 (b2, name, p2)); [|reflexivity].
      eapply Permutation_in; [apply Permutation_sym; exact HPq | exact I2].
Qed.

(** Scenario A with B before A: the same prices, 2.10 and 2.00. *)
Lemma X7_witness :
  e_bookmakers Scenarios.event_A = Some Scenarios.bookmakers_A /\
  e_bookmakers (Scenarios.event "upcoming" (rev Scenarios.bookmakers_A)) =
    Some (rev Scenarios.bookmakers_A) /\
  Permutation Scenarios.bookmakers_A (rev Scenarios.bookmakers_A) /\
  best_odds_of_event Scenarios.event_A =
    Ok [("Home", ("A", 21 # 10)); ("Away", ("B", 2))] /\
  exists best2 : BestOdds,
    best_odds_of_event
      (Scenarios.event "upcoming" (rev Scenarios.bookmakers_A)) = Ok best2 /\
    (forall name,
        In name (dict_keys [("Home", ("A", 21 # 10)); ("Away", ("B", 2))]) <->
        In name (dict_keys best2)) /\
    (forall name bookie1 price1 bookie2 price2,
        dict_get name [("Home", ("A", 21 # 10)); ("Away", ("B", 2))] =
          Some (bookie1, price1) ->
        dict_get name best2 = Some (bookie2, price2) ->
        price1 == price2).
Proof.
  assert (P : Permutation Scenarios.bookmakers_A (rev Scenarios.bookmakers_A))
    by apply Permutation_rev.
  split; [reflexivity|]. split; [reflexivity|]. split; [exact P|].
  split; [reflexivity|].
  exact (X7_best_price_independent_of_order Scenarios.event_A
           (Scenarios.event "upcoming" (rev Scenarios.bookmakers_A))
           Scenarios.bookmakers_A (rev Scenarios.bookmakers_A)
           [("Home", ("A", 21 # 10)); ("Away", ("B", 2))]
           eq_refl eq_refl P eq_refl).
Defined.

(** ** When an event gives a record, and how it fails *)

Lemma Qis_zero_true (x : Q) : Qis_zero x = true <-> x == 0.
Proof.
  unfold Qis_zero, Qeq. simpl. rewrite Z.eqb_eq. lia.
Qed.

Lemma sum_inverse_Raise values : forall acc e,
  sum_inverse acc values = Raise e ->
  e = ZeroDivisionError /\ exists value, In value values /\ snd value == 0.
Proof.
  induction values as [|v values IH]; simpl; intros acc e H; [discriminate|].
  unfold py_inv in H. destruct (Qis_zero (snd v)) eqn:Z; simpl in H.
  - inversion H; subst. split; [reflexivity|]. exists v.
    split; [now left | now apply Qis_zero_true].
  - destruct (IH _ _ H) as (E & v' & Hin & Hz).
    split; [exact E|]. exists v'. split; [now right | exact Hz].
Qed.

Lemma total_implied_cases best :
  (exists total, total_implied best = Ok total /\
     forall entry, In entry best -> ~ snd (snd entry) == 0) \/
  (total_implied best = Raise ZeroDivisionError /\
     exists entry, In entry best /\ snd (snd entry) == 0).
Proof.
  unfold total_implied.
  destruct (sum_inverse 0 (dict_values best)) as [total|e] eqn:S.
  - left. exists total. split; [reflexivity|].
    destruct (sum_inverse_Ok _ _ _ S) as [_ Hnz].
    intros entry Hin. apply Hnz. unfold dict_values. now apply in_map.
  - right. destruct (sum_inverse_Raise _ _ _ S) as (-> & v & Hin & Hz).
    split; [reflexivity|]. unfold dict_values in Hin.
    apply in_map_iff in Hin. destruct Hin as (entry & <- & Hin). eauto.
Qed.



(** X9.  An event that passes the test and whose mapping holds a price of
    zero raises ZeroDivisionError, although nothing is missing from it; the
    exception ends the run over the events: the records of the events
    before it are yielded, no later event is processed. *)
Theorem X9_zero_price_aborts :
  forall (event : Event) (best : BestOdds),
    is_upcoming event = true ->
    best_odds_of_event event = Ok best ->
    (exists entry, In entry best /\ snd (snd entry) == 0) ->
    (forall now, event_record now event = Raise ZeroDivisionError) /\
    (forall clock k before after,
        process_upcoming_events_data clock k (before ++ event :: after) =
        and_then (process_upcoming_events_data clock k before)
          (fun _ => ([], Raised ZeroDivisionError))).
Proof.
  intros event best U B (entry & Hin & Hz).
  assert (R : forall now, event_record now event = Raise ZeroDivisionError).
  { intros now. unfold event_record. unfold is_upcoming in U.
    destruct (e_commence_time event); [|discriminate].
    rewrite B. simpl.
    destruct (total_implied_cases best) as [(t & _ & Hnz)|[-> _]];
      [now apply Hnz in Hz | reflexivity]. }
  split; [exact R|].
  intros clock k before after. rewrite process_app.
  destruct (process_upcoming_events_data clock k before) as [xs [k'|e']];
    [|reflexivity].
  rewrite !and_then_returned. simpl. now rewrite U, R.
Qed.

Lemma X9_witness :
  is_upcoming Samples.event_zero_price = true /\
  best_odds_of_event Samples.event_zero_price =
    Ok [("Home", ("A", 2)); ("Draw", ("A", 0))] /\
  (exists entry, In entry [("Home", ("A", 2)); ("Draw", ("A", 0))] /\
                 snd (snd entry) == 0) /\
  process_upcoming_events_data (fun _ => 0) 0
    ([Scenarios.event_C] ++ Samples.event_zero_price :: [Scenarios.event_A]) =
  ([Scenarios.record_C], Raised ZeroDivisionError).
Proof.
  assert (Z : exists entry : string * (string * Q),
             In entry [("Home", ("A", 2)); ("Draw", ("A", 0))] /\
             snd (snd entry) == 0).
  { exists ("Draw", ("A", 0)). split; [right; now left | reflexivity]. }
  split; [reflexivity|]. split; [reflexivity|]. split; [exact Z|].
  destruct (X9_zero_price_aborts Samples.event_zero_price
              [("Home", ("A", 2)); ("Draw", ("A", 0))] eq_refl eq_refl Z)
    as [_ Hp].
  exact (Hp (fun _ => 0) 0%nat [Scenarios.event_C] [Scenarios.event_A]).
Defined.

Lemma is_upcoming_without_status event :
  e_status event = None -> is_upcoming event = false.
Proof.
  intros H. unfold is_upcoming, event_status. rewrite H.
  now destruct (e_commence_time event).
Qed.

Lemma is_upcoming_without_commence_time event :
  e_commence_time event = None -> is_upcoming event = false.
Proof. intros H. unfold is_upcoming. now rewrite H. Qed.

(** X10.  Events that have no [status] or no [commence_time] give nothing:
    whatever else they hold or lack, no record is yielded, nothing is raised
    and the clock is not read. *)
Theorem X10_events_without_status_are_skipped :
  forall (clock : nat -> Q) (k : nat) (events : list Event),
    (forall event, In event events ->
       e_status event = None \/ e_commence_time event = None) ->
    process_upcoming_events_data clock k events = ([], Returned k).
Proof.
  intros clock k events. induction events as [|event events IH]; intros H;
    [reflexivity|].
  simpl.
  assert (U : is_upcoming event = false).
  { destruct (H event (or_introl eq_refl)).
    - now apply is_upcoming_without_status.
    - now apply is_upcoming_without_commence_time. }
  rewrite U. apply IH. intros e He. apply H. now right.
Qed.

Lemma X10_witness :
  (forall event, In event [Samples.event_no_status; Samples.event_no_status] ->
     e_status event = None \/ e_commence_time event = None) /\
  process_upcoming_events_data (fun _ => 0) 5
    [Samples.event_no_status; Samples.event_no_status] = ([], Returned 5).
Proof.
  assert (H : forall event,
             In event [Samples.event_no_status; Samples.event_no_status] ->
             e_status event = None \/ e_commence_time event = None).
  { intros event [ <- | [ <- | [] ] ]; now left. }
  split; [exact H|].
  exact (X10_events_without_status_are_skipped (fun _ => 0) 5%nat
           [Samples.event_no_status; Samples.event_no_status] H).
Defined.






(** ** The stream of opportunities *)

Lemma Subsequence_In {A} (l1 l2 : list A) :
  Subsequence l1 l2 -> forall x, In x l1 -> In x l2.
Proof.
  induction 1 as [|y l1 l2 HS IH|y l1 l2 HS IH]; intros x Hx.
  - destruct Hx.
  - destruct Hx as [<-|Hx]; [now left | right; now apply IH].
  - right. now apply IH.
Qed.

Lemma get_upcoming_events_data_Ok w k key sport region evs k1 :
  get_upcoming_events_data w k key sport region = Ok (evs, k1) ->
  response_ok (odds_endpoint w key sport region "decimal") = true /\
  (evs = [] \/
   exists events,
     json (odds_endpoint w key sport region "decimal") = PList events /\
     Subsequence evs events).
Proof.
  unfold get_upcoming_events_data.
  destruct (response_ok (odds_endpoint w key sport region "decimal"));
    simpl; [|discriminate].
  intros H. split; [reflexivity|].
  destruct (json (odds_endpoint w key sport region "decimal"))
    as [events|fields].
  - right. exists events. split; [reflexivity|]. inversion H as [F].
    destruct (future_events_facts _ _ _ _ _ F) as [HS _]. exact HS.
  - left. destruct (future_events_of_keys_cases (dict_keys fields))
      as [[E _]|[E _]]; rewrite E in H; simpl in H; [|discriminate].
    now inversion H.
Qed.

Lemma and_then_yielded {A} (t : Trace A) next x :
  In x (yielded (and_then t next)) ->
  In x (yielded t) \/ exists k, ending t = Returned k /\ In x (yielded (next k)).
Proof.
  destruct t as [xs [k|e]]; unfold and_then, yield_then, yielded, ending;
    simpl.
  - rewrite in_app_iff. intros [H|H]; [now left | right; eauto].
  - now left.
Qed.

Lemma sports_loop_yielded w key region cutoff sports : forall k r,
  In r (yielded (sports_loop w key region cutoff sports k)) ->
  exists sport evs k0 k1,
    In sport sports /\
    get_upcoming_events_data w k0 key sport region = Ok (evs, k1) /\
    In r (yielded (arbitrage_opportunities w cutoff k1 evs)).
Proof.
  induction sports as [|sport sports IH]; intros k r H.
  - destruct H.
  - destruct (get_upcoming_events_data w k key sport region)
      as [[evs k1]|e] eqn:G.
    + rewrite (sports_loop_cons _ _ _ _ _ _ _ _ _ G) in H.
      apply and_then_yielded in H. destruct H as [H|(k2 & _ & H)].
      * exists sport, evs, k, k1. split; [now left | auto].
      * destruct (IH _ _ H) as (s & evs' & k0 & k1' & Hin & G' & Hr).
        exists s, evs', k0, k1'. split; [now right | auto].
    + simpl in H. rewrite G in H. destruct H.
Qed.

(** Where an emitted record comes from, and what holds of it. *)
Lemma emitted_record_origin w key region cutoff r :
  In r (yielded (get_upcoming_arbitrage_opportunities w key region cutoff)) ->
  exists sports sport events event now,
    get_sports w key = Ok sports /\
    In sport (set_order w sports) /\
    response_ok (odds_endpoint w key sport region "decimal") = true /\
    json (odds_endpoint w key sport region "decimal") = PList events /\
    In event events /\
    is_upcoming event = true /\
    event_record now event = Ok r /\
    0 < total_implied_odds r /\
    total_implied_odds r < 1 - cutoff /\
    best_outcome_odds r <> [].
Proof.
  unfold get_upcoming_arbitrage_opportunities.
  destruct (get_sports w key) as [sports|e] eqn:S; [|intros []].
  intros H. apply sports_loop_yielded in H.
  destruct H as (sport & evs & k0 & k1 & Hin & G & Hr).
  unfold arbitrage_opportunities, filter_trace, yielded in Hr. simpl in Hr.
  apply filter_In in Hr. destruct Hr as [Hy Ha].
  unfold is_arbitrage in Ha. apply andb_true_iff in Ha.
  destruct Ha as [L0 L1]. apply Qltb_lt in L0. apply Qltb_lt in L1.
  destruct (process_yielded _ _ _ _ Hy) as (event & now & He & U & R).
  destruct (get_upcoming_events_data_Ok _ _ _ _ _ _ _ G)
    as [Hok [->|(events & Hj & HS)]]; [destruct He|].
  exists sports, sport, events, event, now.
  repeat split; auto.
  - eapply Subsequence_In; eassumption.
  - intros Hempty. apply event_record_Ok in R.
    destruct R as (_ & T & _). rewrite Hempty in T.
    inversion T as [T0]. rewrite <- T0 in L0. now apply Qlt_irrefl in L0.
Qed.



(** X13.  With a cutoff of 1 or more the stream emits nothing. *)
Theorem X13_cutoff_of_one_emits_nothing :
  forall (w : World) (key region : string) (cutoff : Q),
    1 <= cutoff ->
    yielded (get_upcoming_arbitrage_opportunities w key region cutoff) = [].
Proof.
  intros w key region cutoff Hc.
  destruct (yielded (get_upcoming_arbitrage_opportunities w key region cutoff))
    as [|r rs] eqn:Y; [reflexivity|].
  exfalso.
  assert (H : In r (yielded (get_upcoming_arbitrage_opportunities
                               w key region cutoff)))
    by (rewrite Y; now left).
  apply emitted_record_origin in H.
  destruct H as (_ & _ & _ & _ & _ & _ & _ & _ & _ & _ & _ & _ & L0 & L1 & _).
  assert (Hle : 1 - cutoff <= 0).
  { unfold Qminus. rewrite <- (Qplus_opp_r cutoff).
    apply Qplus_le_l. exact Hc. }
  eapply Qlt_irrefl, Qlt_trans; [exact L0|].
  eapply Qlt_le_trans; eassumption.
Qed.

Lemma X13_witness :
  1 <= 1 /\
  yielded (get_upcoming_arbitrage_opportunities (Scenarios.world 0)
             "k" "eu" 1) = [].
Proof.
  assert (H : 1 <= 1) by apply Qle_refl.
  split; [exact H|].
  exact (X13_cutoff_of_one_emits_nothing (Scenarios.world 0) "k" "eu" 1 H).
Defined.

Lemma is_arbitrage_weaken cutoff1 cutoff2 r :
  cutoff1 <= cutoff2 ->
  is_arbitrage cutoff2 r = true -> is_arbitrage cutoff1 r = true.
Proof.
  intros Hc. unfold is_arbitrage. rewrite !andb_true_iff, !Qltb_lt.
  intros [L0 L1]. split; [exact L0|].
  eapply Qlt_le_trans; [exact L1|].
  unfold Qminus. apply Qplus_le_r. now apply Qopp_le_compat.
Qed.

Lemma filter_filter_weaker {A} (f g : A -> bool) (l : list A) :
  (forall x, g x = true -> f x = true) ->
  filter g (filter f l) = filter g l.
Proof.
  intros H. induction l as [|x l IH]; simpl; [reflexivity|].
  destruct (f x) eqn:F; simpl.
  - now rewrite IH.
  - destruct (g x) eqn:G; [|exact IH].
    apply H in G. congruence.
Qed.

Lemma sports_loop_cutoff w key region cutoff1 cutoff2 sports :
  cutoff1 <= cutoff2 ->
  forall k,
    ending (sports_loop w key region cutoff2 sports k) =
      ending (sports_loop w key region cutoff1 sports k) /\
    yielded (sports_loop w key region cutoff2 sports k) =
      filter (is_arbitrage cutoff2)
        (yielded (sports_loop w key region cutoff1 sports k)).
Proof.
  intros Hc. induction sports as [|sport sports IH]; intros k.
  - split; reflexivity.
  - destruct (get_upcoming_events_data w k key sport region)
      as [[evs k1]|e] eqn:G.
    + rewrite !(sports_loop_cons _ _ _ _ _ _ _ _ _ G).
      unfold arbitrage_opportunities, filter_trace.
      destruct (process_upcoming_events_data (clock w) k1 evs)
        as [xs [k2|e]]; unfold and_then, yield_then, yielded, ending; simpl.
      * destruct (IH k2) as [He Hy]. unfold yielded, ending in He, Hy.
        split; [exact He|].
        rewrite filter_app, Hy. f_equal.
        symmetry. apply filter_filter_weaker.
        intros x. now apply is_arbitrage_weaken.
      * split; [reflexivity|].
        symmetry. apply filter_filter_weaker.
        intros x. now apply is_arbitrage_weaken.
    + simpl. rewrite G. split; reflexivity.
Qed.

(** X14.  Raising the cutoff only removes opportunities: the stream for the
    higher cutoff is the stream for the lower one filtered by the stricter
    test, in the same order, and the two runs end the same way. *)
Theorem X14_higher_cutoff_filters_stream :
  forall (w : World) (key region : string) (cutoff1 cutoff2 : Q),
    cutoff1 <= cutoff2 ->
    ending (get_upcoming_arbitrage_opportunities w key region cutoff2) =
      ending (get_upcoming_arbitrage_opportunities w key region cutoff1) /\
    yielded (get_upcoming_arbitrage_opportunities w key region cutoff2) =
      filter (is_arbitrage cutoff2)
        (yielded (get_upcoming_arbitrage_opportunities w key region cutoff1)).
Proof.
  intros w key region cutoff1 cutoff2 Hc.
  unfold get_upcoming_arbitrage_opportunities.
  destruct (get_sports w key) as [sports|e]; [|split; reflexivity].
  now apply sports_loop_cutoff.
Qed.

Lemma X14_witness :
  2 # 100 <= 5 # 100 /\
  yielded (get_upcoming_arbitrage_opportunities (Scenarios.world 0)
             "k" "eu" (5 # 100)) =
  filter (is_arbitrage (5 # 100))
    (yielded (get_upcoming_arbitrage_opportunities (Scenarios.world 0)
                "k" "eu" (2 # 100))).
Proof.
  assert (H : 2 # 100 <= 5 # 100) by (unfold Qle; simpl; lia).
  split; [exact H|].
  apply (X14_higher_cutoff_filters_stream (Scenarios.world 0) "k" "eu"
           (2 # 100) (5 # 100) H).
Defined.

(** X15.  The stream is incremental: what it has yielded for the first
    sports does not depend on the sports that follow, whether they give
    opportunities, nothing or an exception; and when the run over the first
    sports ends with an exception, the later sports are not even fetched. *)
Theorem X15_stream_is_incremental :
  forall (w : World) (key region : string) (cutoff : Q)
         (sports1 sports2 : list string) (k : nat),
    (exists more,
        yielded (sports_loop w key region cutoff (sports1 ++ sports2) k) =
        (yielded (sports_loop w key region cutoff sports1 k) ++ more)%list) /\
    (forall e,
        ending (sports_loop w key region cutoff sports1 k) = Raised e ->
        sports_loop w key region cutoff (sports1 ++ sports2) k =
        sports_loop w key region cutoff sports1 k).
Proof.
  intros w key region cutoff sports1 sports2 k. rewrite sports_loop_app.
  destruct (sports_loop w key region cutoff sports1 k) as [xs [k'|e']];
    unfold and_then, yield_then, yielded, ending; simpl.
  - split; [eauto | discriminate].
  - split; [exists []; now rewrite app_nil_r | reflexivity].
Qed.

Lemma X15_witness :
  ending (sports_loop Samples.world_rate_limited "k" "eu" (2 # 100)
            ["nba"; "nfl"] 0) =
    Raised (handle_faulty_response
              (odds_endpoint Samples.world_rate_limited "k" "nfl" "eu"
                 "decimal")) /\
  sports_loop Samples.world_rate_limited "k" "eu" (2 # 100)
    (["nba"; "nfl"] ++ ["nhl"]) 0 =
  sports_loop Samples.world_rate_limited "k" "eu" (2 # 100) ["nba"; "nfl"] 0.
Proof.
  assert (H : ending (sports_loop Samples.world_rate_limited "k" "eu"
                        (2 # 100) ["nba"; "nfl"] 0) =
              Raised (handle_faulty_response
                        (odds_endpoint Samples.world_rate_limited "k" "nfl"
                           "eu" "decimal")))
    by reflexivity.
  split; [exact H|].
  destruct (X15_stream_is_incremental Samples.world_rate_limited "k" "eu"
              (2 # 100) ["nba"; "nfl"] ["nhl"] 0) as [_ Hstop].
  exact (Hstop _ H).
Defined.



(** ** What a record says of its event *)






